(** * Word count as a map / sort / reduce pipeline

    A shallow embedding of [mapreduce.go] and [heap.go]: the pure mapper
    function [mapFn], the three stages [mapper], [sorter] and [reducer], and
    the [wordCountHeap] that the sorter drives through [container/heap].

    Conventions.
    - A Go [string] is a sequence of bytes: [String.string].  Comparison of
      strings ([<]) is byte-wise lexicographic: [String.ltb].
    - A Go [int] is a 64-bit signed integer: a [Z] with the wrap-around of
      [+=] written out ([int_add]).
    - Slice indices are [nat]; a slice is a [list] read with [!!] and
      written with [<[_:=_]>].
    - A channel that is ranged over until it is closed is the finite list of
      the values sent on it; a stage of an uncancelled run is a function from
      the list it receives to the list it sends. *)

From Stdlib Require Import ZArith Zbitwise Ascii String Lia.
From Stdlib Require Import DecimalString DecimalPos DecimalZ.
From stdpp Require Import base list sorting strings gmap.

Local Open Scope Z_scope.

(** ** Records *)

Record wordCount : Type := mkWordCount { word : string; count : Z }.

#[global] Instance wordCount_eq_dec : EqDecision wordCount.
Proof. solve_decision. Defined.

(** Go's [int] arithmetic: two's complement on 64 bits. *)
Definition int_bits : Z := 64.

Definition int_wrap (x : Z) : Z :=
  (x + 2 ^ (int_bits - 1)) mod 2 ^ int_bits - 2 ^ (int_bits - 1).

Definition int_add (a b : Z) : Z := int_wrap (a + b).

(** ** The library functions [mapFn] calls

    [strings.Fields], [regexp.ReplaceAllString] and [strings.ToLower] work on
    the runes of a string, so the UTF-8 decoding of [unicode/utf8] comes
    first. *)

Module utf8.

Definition RuneError : Z := 0xFFFD.

Definition locb : Z := 0x80.
Definition hicb : Z := 0xBF.

Definition byte_val (c : ascii) : Z := Z.of_N (N_of_ascii c).

(** The table [first]: information about the first byte of an encoding.
    [0xF0] is ASCII, [0xF1] an invalid first byte; otherwise the low three
    bits are the size and the high four bits index [acceptRanges]. *)
Definition first (b : Z) : Z :=
  if b <? 0x80 then 0xF0
  else if b <? 0xC2 then 0xF1
  else if b <? 0xE0 then 0x02
  else if b =? 0xE0 then 0x13
  else if b <? 0xED then 0x03
  else if b =? 0xED then 0x23
  else if b <? 0xF0 then 0x03
  else if b =? 0xF0 then 0x34
  else if b <? 0xF4 then 0x04
  else if b =? 0xF4 then 0x44
  else 0xF1.

Definition acceptRanges (k : Z) : Z * Z :=
  if k =? 0 then (locb, hicb)
  else if k =? 1 then (0xA0, hicb)
  else if k =? 2 then (locb, 0x9F)
  else if k =? 3 then (0x90, hicb)
  else if k =? 4 then (locb, 0x8F)
  else (0, 0).

Definition byte_at (s : string) (i : nat) : Z :=
  match String.get i s with
  | Some c => byte_val c
  | None => 0
  end.

(** [DecodeRuneInString]: the first rune of [s] and its width in bytes; an
    invalid encoding is [RuneError] of width 1. *)
Definition DecodeRuneInString (s : string) : Z * nat :=
  let n := Z.of_nat (String.length s) in
  if n <? 1 then (RuneError, 0%nat) else
  let s0 := byte_at s 0 in
  let x := first s0 in
  if x >=? 0xF0 then
    (if Z.testbit x 0 then RuneError else s0, 1%nat)
  else
    let sz := Z.land x 7 in
    let '(lo, hi) := acceptRanges (Z.shiftr x 4) in
    if n <? sz then (RuneError, 1%nat) else
    let s1 := byte_at s 1 in
    if (s1 <? lo) || (hi <? s1) then (RuneError, 1%nat) else
    if sz <=? 2 then
      (Z.lor (Z.shiftl (Z.land s0 0x1F) 6) (Z.land s1 0x3F), 2%nat)
    else
    let s2 := byte_at s 2 in
    if (s2 <? locb) || (hicb <? s2) then (RuneError, 1%nat) else
    if sz <=? 3 then
      (Z.lor (Z.lor (Z.shiftl (Z.land s0 0x0F) 12)
                    (Z.shiftl (Z.land s1 0x3F) 6))
             (Z.land s2 0x3F), 3%nat)
    else
    let s3 := byte_at s 3 in
    if (s3 <? locb) || (hicb <? s3) then (RuneError, 1%nat) else
      (Z.lor (Z.lor (Z.lor (Z.shiftl (Z.land s0 0x07) 18)
                           (Z.shiftl (Z.land s1 0x3F) 12))
                    (Z.shiftl (Z.land s2 0x3F) 6))
             (Z.land s3 0x3F), 4%nat).

(** [for _, r := range s]: the runes of [s], each with the bytes that
    encode it.  [skip] counts the bytes of the current rune that are still
    to be stepped over. *)
Fixpoint range_from (skip : nat) (s : string) : list (Z * string) :=
  match s with
  | EmptyString => []
  | String _ t =>
      match skip with
      | S k => range_from k t
      | O =>
          let '(r, size) := DecodeRuneInString s in
          (r, String.substring 0 size s) :: range_from (size - 1) t
      end
  end.

Definition range (s : string) : list (Z * string) := range_from 0 s.

End utf8.

Module unicode.

(** [unicode.IsSpace]: the Latin-1 spaces, then the [White_Space] table. *)
Definition IsSpace (r : Z) : bool :=
  if (0 <=? r) && (r <=? 0xFF) then
    ((0x09 <=? r) && (r <=? 0x0D)) || (r =? 0x20) || (r =? 0x85) || (r =? 0xA0)
  else
    (r =? 0x1680) || ((0x2000 <=? r) && (r <=? 0x200A))
    || (r =? 0x2028) || (r =? 0x2029) || (r =? 0x202F)
    || (r =? 0x205F) || (r =? 0x3000).

End unicode.

Module strings.

(** The loop of [FieldsFunc].  [start] is the field being scanned, if any:
    the source keeps its first index and slices [s[start:end]] when the
    field closes; here the bytes are gathered on the way. *)
Fixpoint FieldsFunc_loop (f : Z -> bool) (start : option string)
         (rs : list (Z * string)) : list string :=
  match rs with
  | [] =>
      match start with
      | Some w => [w]
      | None => []
      end
  | (r, bytes) :: rs' =>
      if f r then
        match start with
        | Some w => w :: FieldsFunc_loop f None rs'
        | None => FieldsFunc_loop f None rs'
        end
      else
        match start with
        | Some w => FieldsFunc_loop f (Some (w +:+ bytes)) rs'
        | None => FieldsFunc_loop f (Some bytes) rs'
        end
  end.

Definition FieldsFunc (s : string) (f : Z -> bool) : list string :=
  FieldsFunc_loop f None (utf8.range s).

(** [strings.Fields]: split around each run of white space, as defined by
    [unicode.IsSpace]. *)
Definition Fields (s : string) : list string := FieldsFunc s unicode.IsSpace.

Definition lower_byte (c : ascii) : ascii :=
  let b := utf8.byte_val c in
  if (0x41 <=? b) && (b <=? 0x5A) then ascii_of_N (Z.to_N (b + 0x20)) else c.

(** [strings.ToLower] on a string of ASCII bytes, which is what [mapFn]
    passes: see [ReplaceAllString_ascii]. *)
Fixpoint ToLower (s : string) : string :=
  match s with
  | EmptyString => EmptyString
  | String c t => String (lower_byte c) (ToLower t)
  end.

End strings.

Module regexp.

(** A regular expression of the form [[...]+]: one or more runes of a
    character class, the class given by its test. *)
Record Regexp : Type := MustCompile { class : Z -> bool }.

(** [re.ReplaceAllString(src, repl)]: every maximal run of runes of the
    class is one match and is replaced by [repl].  [in_match] tells whether
    the previous rune was part of a match. *)
Fixpoint replace_loop (re : Regexp) (repl : string) (in_match : bool)
         (rs : list (Z * string)) : string :=
  match rs with
  | [] => EmptyString
  | (r, bytes) :: rs' =>
      if class re r then
        if in_match then replace_loop re repl true rs'
        else repl +:+ replace_loop re repl true rs'
      else bytes +:+ replace_loop re repl false rs'
  end.

Definition ReplaceAllString (re : Regexp) (src repl : string) : string :=
  replace_loop re repl false (utf8.range src).

End regexp.

(** ** mapFn *)

(** The range [a-zA-Z]. *)
Definition is_alpha (r : Z) : bool :=
  ((0x61 <=? r) && (r <=? 0x7A)) || ((0x41 <=? r) && (r <=? 0x5A)).

(** [nonAlpha = regexp.MustCompile("[^a-zA-Z]+")] *)
Definition nonAlpha : regexp.Regexp :=
  regexp.MustCompile (fun r => negb (is_alpha r)).

Definition string_nonempty (w : string) : bool :=
  match w with
  | EmptyString => false
  | String _ _ => true
  end.

(** The body of the loop of [mapFn]. *)
Definition mapFn_body (result : list wordCount) (w : string) : list wordCount :=
  let w := strings.ToLower (regexp.ReplaceAllString nonAlpha w "") in
  if string_nonempty w then result ++ [mkWordCount w 1] else result.

Definition mapFn (line : string) : list wordCount :=
  fold_left mapFn_body (strings.Fields line) [].

(** ** mapper: every line through [fn], records sent in order. *)

Definition mapper (input : list string) (fn : string -> list wordCount)
  : list wordCount :=
  flat_map fn input.

(** ** wordCountHeap: the methods of [heap.Interface] *)

Module wordCountHeap.

Abbreviation t := (list wordCount) (only parsing).

Definition Len (w : t) : nat := length w.

(** Indexing out of range panics in Go; [heap.up] and [heap.down] only
    pass indices below [Len]. *)
Definition Less (w : t) (i j : nat) : bool :=
  match w !! i, w !! j with
  | Some a, Some b => String.ltb (word a) (word b)
  | _, _ => false
  end.

Definition Swap (w : t) (i j : nat) : t :=
  match w !! i, w !! j with
  | Some a, Some b => <[i:=b]> (<[j:=a]> w)
  | _, _ => w
  end.

(** [Pop] returns the last element and the shortened slice; it panics on
    an empty slice ([None]). *)
Definition Pop (w : t) : option (wordCount * t) :=
  match w !! (length w - 1)%nat with
  | Some v => Some (v, take (length w - 1) w)
  | None => None
  end.

Definition Push (w : t) (x : wordCount) : t := w ++ [x].

End wordCountHeap.

(** ** container/heap over [wordCountHeap] *)

Module heap.

Import wordCountHeap.

(** [up]: one iteration per unit of [fuel]; the index at least halves at
    every iteration, so [S j] iterations are more than the loop takes
    ([up_loop_fuel]). *)
Fixpoint up_loop (fuel : nat) (h : t) (j : nat) : t :=
  match fuel with
  | O => h
  | S fuel' =>
      let i := ((j - 1) / 2)%nat in
      if (i =? j)%nat || negb (Less h j i) then h
      else up_loop fuel' (Swap h i j) i
  end.

Definition up (h : t) (j : nat) : t := up_loop (S j) h j.

(** [down]: the index grows at every iteration and stays below [n], so
    [n] iterations are more than the loop takes ([down_loop_fuel]).  The
    boolean that the source returns is not used by [Pop], and the test
    [j1 < 0] of the source only guards against the overflow of [2*i + 1],
    which no index of a slice reaches. *)
Fixpoint down_loop (fuel : nat) (h : t) (i n : nat) : t :=
  match fuel with
  | O => h
  | S fuel' =>
      let j1 := (2 * i + 1)%nat in
      if (n <=? j1)%nat then h
      else
        let j2 := (j1 + 1)%nat in
        let j := if (j2 <? n)%nat && Less h j2 j1 then j2 else j1 in
        if negb (Less h j i) then h
        else down_loop fuel' (Swap h i j) j n
  end.

Definition down (h : t) (i0 n : nat) : t := down_loop n h i0 n.

Definition Push (h : t) (x : wordCount) : t :=
  let h := wordCountHeap.Push h x in
  up h (Len h - 1).

(** [Pop] on an empty heap panics (the swap indexes [-1]): [None]. *)
Definition Pop (h : t) : option (wordCount * t) :=
  if (Len h =? 0)%nat then None
  else
    let n := (Len h - 1)%nat in
    let h := Swap h 0 n in
    let h := down h 0 n in
    wordCountHeap.Pop h.

End heap.

(** ** sorter *)

(** First loop: every record received is pushed. *)
Definition sorter_drain (input : list wordCount) : wordCountHeap.t :=
  fold_left heap.Push input [].

(** Second loop: [for wcHeap.Len() > 0 { ch <- heap.Pop(wcHeap) }]; it runs
    [Len] times ([sorter_emit_fuel]). *)
Fixpoint sorter_emit (fuel : nat) (h : wordCountHeap.t) : list wordCount :=
  match fuel with
  | O => []
  | S fuel' =>
      if (0 <? wordCountHeap.Len h)%nat then
        match heap.Pop h with
        | Some (v, h') => v :: sorter_emit fuel' h'
        | None => []
        end
      else []
  end.

Definition sorter (input : list wordCount) : list wordCount :=
  let h := sorter_drain input in
  sorter_emit (wordCountHeap.Len h) h.

(** ** reducer *)

(** [var wc wordCount]: the zero value. *)
Definition wc_zero : wordCount := mkWordCount "" 0.

(** One iteration of the loop of [reducer] on the record [inp]: the records
    sent and the new value of [wc]. *)
Definition reducer_step (wc inp : wordCount) : list wordCount * wordCount :=
  let '(sent, wc) :=
    if negb (String.eqb (word wc) (word inp)) then
      (if negb (String.eqb (word wc) "") then [wc] else [], inp)
    else ([], wc) in
  (sent, mkWordCount (word wc) (int_add (count wc) (count inp))).

(** The loop; when the input is closed the goroutine returns [nil], and the
    deferred function closes the channel. *)
Fixpoint reducer_loop (wc : wordCount) (input : list wordCount)
  : list wordCount :=
  match input with
  | [] => []
  | inp :: rest =>
      let '(sent, wc') := reducer_step wc inp in
      sent ++ reducer_loop wc' rest
  end.

Definition reducer (input : list wordCount) : list wordCount :=
  reducer_loop wc_zero input.

(** ** The pipeline of [main]: mapper, sorter, reducer.

    [pipeline] is the composition of the three stages as [main] wires them
    ([mapped], [sorted], [reduced]): what the last goroutine of [main]
    receives in a run in which every stage is started and reads its input
    to the end.  [main] also bounds the number of goroutines of its group
    ([eg.SetLimit(runtime.GOMAXPROCS(0))]), and [eg.Go] blocks while the
    bound is reached; a run in which a stage is not started, or one that is
    cancelled, is not described by [pipeline]. *)

Definition pipeline (lines : list string) : list wordCount :=
  reducer (sorter (mapper lines mapFn)).

(** ** The sorter as a machine

    The goroutine of [sorter] step by step: it is in its first loop
    ([Draining]), in its second ([Emitting]) or has returned ([Exited]).
    [pending] holds the records that the input channel has still to
    deliver, [sent] the records sent so far. *)

Inductive sorter_phase : Type := Draining | Emitting | Exited.

Record sorter_state : Type := mkSorterState {
  phase : sorter_phase;
  pending : list wordCount;
  wcHeap : list wordCount;
  sent : list wordCount
}.

Definition sorter_init (input : list wordCount) : sorter_state :=
  mkSorterState Draining input [] [].

Definition sorter_step (s : sorter_state) : sorter_state :=
  match phase s with
  | Draining =>
      match pending s with
      | wc :: rest =>
          mkSorterState Draining rest (heap.Push (wcHeap s) wc) (sent s)
      | [] => mkSorterState Emitting [] (wcHeap s) (sent s)
      end
  | Emitting =>
      if (0 <? wordCountHeap.Len (wcHeap s))%nat then
        match heap.Pop (wcHeap s) with
        | Some (v, h') => mkSorterState Emitting (pending s) h' (sent s ++ [v])
        | None => mkSorterState Exited (pending s) (wcHeap s) (sent s)
        end
      else mkSorterState Exited (pending s) (wcHeap s) (sent s)
  | Exited => s
  end.

Fixpoint sorter_run (n : nat) (s : sorter_state) : sorter_state :=
  match n with
  | O => s
  | S n' => sorter_run n' (sorter_step s)
  end.

(** Nothing is sent while records are pending. *)
Definition sorter_barrier (s : sorter_state) : Prop :=
  (phase s = Draining ∧ sent s = []) ∨ (phase s ≠ Draining ∧ pending s = []).

(** ** Sequences of heap operations *)

Inductive heap_op : Type :=
| OpPush (x : wordCount)
| OpPop.

(** The heap after [ops], or [None] when a [Pop] hits the empty heap. *)
Fixpoint heap_run (ops : list heap_op) (h : list wordCount)
  : option (list wordCount) :=
  match ops with
  | [] => Some h
  | OpPush x :: ops' => heap_run ops' (heap.Push h x)
  | OpPop :: ops' =>
      match heap.Pop h with
      | Some (_, h') => heap_run ops' h'
      | None => None
      end
  end.

(** ** The order of the words *)

Definition str_le (s1 s2 : string) : Prop := String.ltb s2 s1 = false.
Definition str_lt (s1 s2 : string) : Prop := String.ltb s1 s2 = true.

Definition word_le (a b : wordCount) : Prop := str_le (word a) (word b).
Definition word_lt (a b : wordCount) : Prop := str_lt (word a) (word b).

#[global] Instance wordCount_inhabited : Inhabited wordCount := populate wc_zero.

(** ** The heap order

    The slot [k > 0] has its parent at [(k - 1) / 2], as in [up]. *)

Definition parent (k : nat) : nat := ((k - 1) / 2)%nat.

(** The heap order on the first [n] slots, but for the slots in [bad]. *)
Definition ordered_but (bad : nat -> Prop) (n : nat) (h : list wordCount)
  : Prop :=
  forall k, (0 < k < n)%nat -> ~ bad k -> word_le (h !!! parent k) (h !!! k).

Definition ordered_upto (n : nat) (h : list wordCount) : Prop :=
  ordered_but (fun _ => False) n h.

Definition heap_ordered (h : list wordCount) : Prop :=
  ordered_upto (length h) h.

(** What [up] knows when it stands at [j]: only the pair of [j] and its
    parent may be out of order, and the parent of [j] is below the children
    of [j]. *)
Definition up_inv (h : list wordCount) (j : nat) : Prop :=
  ordered_but (fun k => k = j) (length h) h /\
  ((0 < j)%nat -> forall c, (0 < c < length h)%nat -> parent c = j ->
                  word_le (h !!! parent j) (h !!! c)).

(** What [down] knows when it stands at [i]: only the pairs of [i] and its
    children may be out of order, and the parent of [i] is below the
    children of [i]. *)
Definition down_inv (h : list wordCount) (i n : nat) : Prop :=
  ordered_but (fun k => parent k = i) n h /\
  ((0 < i)%nat -> forall c, (0 < c < n)%nat -> parent c = i ->
                  word_le (h !!! parent i) (h !!! c)).

(** ** The mapper in the words of its contract *)

(** A byte that is an ASCII letter. *)
Definition is_letter_byte (c : ascii) : bool :=
  is_alpha (utf8.byte_val c).

(** The bytes of [s] that satisfy [p]. *)
Fixpoint string_filter (p : ascii -> bool) (s : string) : string :=
  match s with
  | EmptyString => EmptyString
  | String c t => if p c then String c (string_filter p t) else string_filter p t
  end.

(** Every character that is not an ASCII letter removed, the rest in lower
    case. *)
Definition normalize (w : string) : string :=
  strings.ToLower (string_filter is_letter_byte w).

(** [s] without its first [k] bytes. *)
Fixpoint string_drop (k : nat) (s : string) : string :=
  match k, s with
  | O, _ => s
  | S k', String _ t => string_drop k' t
  | S _, EmptyString => EmptyString
  end.

(** A string of lower-case ASCII letters. *)
Definition lower_letters (w : string) : Prop :=
  Forall (fun c => 0x61 <= utf8.byte_val c <= 0x7A) (list_ascii_of_string w).

(** The bytes of a sequence of runes. *)
Fixpoint token_string (tok : list (Z * string)) : string :=
  match tok with
  | [] => EmptyString
  | (_, bytes) :: tok' => bytes +:+ token_string tok'
  end.

Definition starts_with_space (rs : list (Z * string)) : Prop :=
  match rs with
  | [] => True
  | (r, _) :: _ => unicode.IsSpace r = true
  end.

(** [split_ws rs toks]: [toks] are the maximal runs of runes of [rs] that are
    not white space, from left to right. *)
Inductive split_ws : list (Z * string) -> list (list (Z * string)) -> Prop :=
| split_ws_nil : split_ws [] []
| split_ws_space r bytes rs toks :
    unicode.IsSpace r = true ->
    split_ws rs toks ->
    split_ws ((r, bytes) :: rs) toks
| split_ws_token tok rs toks :
    tok <> [] ->
    Forall (fun rb => unicode.IsSpace rb.1 = false) tok ->
    starts_with_space rs ->
    split_ws rs toks ->
    split_ws (tok ++ rs) (tok :: toks).

(** A rune of [utf8.range] and its bytes: a letter is its own single byte,
    and the bytes of any other rune hold no letter. *)
Definition chunk_ok (rb : Z * string) : Prop :=
  (is_alpha rb.1 = true /\
   exists c, rb.2 = String c EmptyString /\ utf8.byte_val c = rb.1) \/
  (is_alpha rb.1 = false /\
   string_filter is_letter_byte rb.2 = EmptyString).

(** ** The contract of [mapFn] on the bytes of a line

    What [mapFn] is to return, written on the bytes of the line and without
    the functions of the libraries: no decoding, no table of runes, no
    regular expression. *)

Definition byte_code (c : ascii) : Z := Z.of_nat (nat_of_ascii c).

(** The number of bytes of the white space at the head of [s], [0] if [s]
    does not start with white space.  White space is one of the code points
    of the Unicode property [White_Space] in its UTF-8 encoding:
    U+0009 to U+000D and U+0020 (one byte); U+0085 (C2 85), U+00A0 (C2 A0);
    U+1680 (E1 9A 80); U+2000 to U+200A (E2 80 80 to E2 80 8A);
    U+2028 (E2 80 A8), U+2029 (E2 80 A9), U+202F (E2 80 AF);
    U+205F (E2 81 9F); U+3000 (E3 80 80). *)
Definition white_space_width (s : string) : nat :=
  match s with
  | String c0 t0 =>
      let b0 := byte_code c0 in
      if ((9 <=? b0) && (b0 <=? 13) || (b0 =? 32)) then 1%nat
      else
        match t0 with
        | String c1 t1 =>
            let b1 := byte_code c1 in
            if ((b0 =? 0xC2) && ((b1 =? 0x85) || (b1 =? 0xA0))) then 2%nat
            else
              match t1 with
              | String c2 _ =>
                  let b2 := byte_code c2 in
                  if ((b0 =? 0xE1) && (b1 =? 0x9A) && (b2 =? 0x80)
                      || (b0 =? 0xE2) && (b1 =? 0x80)
                         && ((0x80 <=? b2) && (b2 <=? 0x8A)
                             || (b2 =? 0xA8) || (b2 =? 0xA9) || (b2 =? 0xAF))
                      || (b0 =? 0xE2) && (b1 =? 0x81) && (b2 =? 0x9F)
                      || (b0 =? 0xE3) && (b1 =? 0x80) && (b2 =? 0x80))
                  then 3%nat else 0%nat
              | EmptyString => 0%nat
              end
        | EmptyString => 0%nat
        end
  | EmptyString => 0%nat
  end.

Definition close_field (cur : option string) : list string :=
  match cur with
  | Some w => [w]
  | None => []
  end.

Definition extend_field (cur : option string) (c : ascii) : option string :=
  match cur with
  | Some w => Some (w +:+ String c EmptyString)
  | None => Some (String c EmptyString)
  end.

(** The fields of a line, byte by byte: white space closes the field that
    is open, any other byte goes into it.  [skip] counts the bytes of the
    current white space that are still to be stepped over. *)
Fixpoint fields_from (skip : nat) (cur : option string) (s : string)
  : list string :=
  match s with
  | EmptyString => close_field cur
  | String c t =>
      match skip with
      | S k => fields_from k cur t
      | O =>
          match white_space_width s with
          | O => fields_from 0 (extend_field cur c) t
          | S k => close_field cur ++ fields_from k None t
          end
      end
  end.

Definition fields_of_bytes (s : string) : list string := fields_from 0 None s.

(** The ASCII letters of a token in lower case, by the codes of its bytes. *)
Fixpoint letters_lower (w : string) : string :=
  match w with
  | EmptyString => EmptyString
  | String c t =>
      let n := nat_of_ascii c in
      if ((65 <=? n) && (n <=? 90))%nat
      then String (ascii_of_nat (n + 32)) (letters_lower t)
      else if ((97 <=? n) && (n <=? 122))%nat
      then String c (letters_lower t)
      else letters_lower t
  end.

Definition mapFn_on_bytes (line : string) : list wordCount :=
  map (fun w => mkWordCount w 1)
      (List.filter (fun w => negb (String.eqb w EmptyString))
                   (map letters_lower (fields_of_bytes line))).

(** The next [k] bytes of [t] are continuation bytes of an encoding. *)
Fixpoint cont_prefix (k : nat) (t : string) : Prop :=
  match k with
  | O => True
  | S k' =>
      match t with
      | String c t' => 0x80 <= utf8.byte_val c <= 0xBF ∧ cont_prefix k' t'
      | EmptyString => False
      end
  end.

(** ** A reference word count

    One pass over the lines: every token normalized, the empty ones left
    out, one more occurrence counted for the word. *)

Definition count_word (m : gmap string Z) (w : string) : gmap string Z :=
  <[w := default 0 (m !! w) + 1]> m.

Definition reference_tokens (lines : list string) : list string :=
  List.filter string_nonempty
    (flat_map (fun line => map normalize (strings.Fields line)) lines).

Definition reference_count (lines : list string) : gmap string Z :=
  fold_left count_word (reference_tokens lines) ∅.

(** The records of an output grouped by word, the counts of a word added. *)
Definition add_record (m : gmap string Z) (r : wordCount) : gmap string Z :=
  <[word r := default 0 (m !! word r) + count r]> m.

Definition group_sum (out : list wordCount) : gmap string Z :=
  fold_left add_record out ∅.

Definition total_count (out : list wordCount) : Z :=
  fold_left (fun acc r => acc + count r) out 0.

(** ** Counting the records of a word *)

(** The number of records of [l] with the word [w]. *)
Definition occurrences (w : string) (l : list wordCount) : nat :=
  length (List.filter (fun r => String.eqb (word r) w) l).

(** The counts of the records of [l] with the word [w], added up. *)
Fixpoint group_total (w : string) (l : list wordCount) : Z :=
  match l with
  | [] => 0
  | r :: l' =>
      (if String.eqb (word r) w then count r else 0) + group_total w l'
  end.

(** The count of the first record of [l] with the word [w]. *)
Fixpoint first_count (w : string) (l : list wordCount) : Z :=
  match l with
  | [] => 0
  | r :: l' => if String.eqb (word r) w then count r else first_count w l'
  end.

(** ** The report of [main]

    The last goroutine of [main] prints every record it receives with
    [fmt.Printf("%-15s%4d\n", wc.word, wc.count)]. *)

Module fmt.

(** The verb [%d] on an [int]: the decimal digits, after a minus sign for a
    negative number. *)
Definition format_int (z : Z) : string := NilZero.string_of_int (Z.to_int z).

(** The width of a string is counted in runes ([utf8.RuneCountInString]). *)
Definition RuneCountInString (s : string) : nat := length (utf8.range s).

Fixpoint spaces (n : nat) : string :=
  match n with
  | O => EmptyString
  | S n' => String " " (spaces n')
  end.

(** [%-15s]: padded with spaces on the right up to the width. *)
Definition pad_right (width : nat) (s : string) : string :=
  s +:+ spaces (width - RuneCountInString s).

(** [%4d]: padded with spaces on the left up to the width. *)
Definition pad_left (width : nat) (s : string) : string :=
  spaces (width - RuneCountInString s) +:+ s.

End fmt.

Definition print_record (wc : wordCount) : string :=
  fmt.pad_right 15 (word wc)
  +:+ fmt.pad_left 4 (fmt.format_int (count wc))
  +:+ String "010" EmptyString.

(** A decimal digit or the minus sign. *)
Definition is_num_byte (c : ascii) : bool :=
  let b := utf8.byte_val c in ((0x30 <=? b) && (b <=? 0x39)) || (b =? 0x2D).

(** ** The goroutines with their [select] statements

    What a goroutine started by [eg.Go] does depends on its [select]
    statements, which the rest of the program decides.  A goroutine is run
    here against the number of its sends that go through before a [select]
    takes [<-ctx.Done()] ([grants]) and the number of its polls that find the
    context not done ([polls]); it gives the error it returns and the
    records it has sent on its channel when the deferred function closes
    it. *)

(** [ctx.Err()] *)
Inductive error : Type := ctx_Err.

Module task.

Record env : Type := mkEnv {
  polls : nat;
  grants : nat;
  ch : list wordCount
}.

(** A piece of a goroutine: it goes on with a value, or the goroutine
    returns an error. *)
Definition M (A : Type) : Type := env -> (A + error) * env.

Definition ret {A : Type} (a : A) : M A := fun e => (inl a, e).

Definition bind {A B : Type} (m : M A) (f : A -> M B) : M B :=
  fun e =>
    match m e with
    | (inl a, e') => f a e'
    | (inr err, e') => (inr err, e')
    end.

(** [select { case ch <- x: case <-ctx.Done(): return ctx.Err() }] *)
Definition send (x : wordCount) : M unit :=
  fun e =>
    match grants e with
    | O => (inr ctx_Err, e)
    | S g => (inl tt, mkEnv (polls e) g (ch e ++ [x]))
    end.

(** [select { case <-ctx.Done(): return ctx.Err() default: }] *)
Definition poll : M unit :=
  fun e =>
    match polls e with
    | O => (inr ctx_Err, e)
    | S p => (inl tt, mkEnv p (grants e) (ch e))
    end.

(** [for _, x := range xs { select { case ch <- x: ... } }] *)
Fixpoint send_all (xs : list wordCount) : M unit :=
  match xs with
  | [] => ret tt
  | x :: xs' => bind (send x) (fun _ => send_all xs')
  end.

(** The goroutine from its start to its return: [return nil] at the end of
    the body. *)
Definition run (body : M unit) (p g : nat) : option error * list wordCount :=
  match body (mkEnv p g []) with
  | (inl _, e) => (None, ch e)
  | (inr err, e) => (Some err, ch e)
  end.

End task.

(** The goroutine of [mapper]. *)
Fixpoint mapper_range (fn : string -> list wordCount) (input : list string)
  : task.M unit :=
  match input with
  | [] => task.ret tt
  | l :: rest =>
      task.bind (task.send_all (fn l)) (fun _ => mapper_range fn rest)
  end.

Definition mapper_go (input : list string) (fn : string -> list wordCount)
           (p g : nat) : option error * list wordCount :=
  task.run (mapper_range fn input) p g.

(** The goroutine of [sorter]: the first loop polls the context before
    every push, the second sends what [heap.Pop] returns. *)
Fixpoint sorter_range (h : list wordCount) (input : list wordCount)
  : task.M (list wordCount) :=
  match input with
  | [] => task.ret h
  | wc :: rest =>
      task.bind task.poll (fun _ => sorter_range (heap.Push h wc) rest)
  end.

Fixpoint sorter_for (fuel : nat) (h : list wordCount) : task.M unit :=
  match fuel with
  | O => task.ret tt
  | S fuel' =>
      if (0 <? wordCountHeap.Len h)%nat then
        match heap.Pop h with
        | Some (v, h') => task.bind (task.send v) (fun _ => sorter_for fuel' h')
        | None => task.ret tt
        end
      else task.ret tt
  end.

Definition sorter_go (input : list wordCount) (p g : nat)
  : option error * list wordCount :=
  task.run
    (task.bind (sorter_range [] input)
               (fun h => sorter_for (wordCountHeap.Len h) h))
    p g.

(** The goroutine of [reducer]. *)
Fixpoint reducer_range (wc : wordCount) (input : list wordCount)
  : task.M unit :=
  match input with
  | [] => task.ret tt
  | inp :: rest =>
      task.bind
        (if negb (String.eqb (word wc) (word inp)) then
           task.bind
             (if negb (String.eqb (word wc) "") then task.send wc
              else task.ret tt)
             (fun _ => task.ret inp)
         else task.ret wc)
        (fun wc =>
           reducer_range
             (mkWordCount (word wc) (int_add (count wc) (count inp))) rest)
  end.

Definition reducer_go (input : list wordCount) (p g : nat)
  : option error * list wordCount :=
  task.run (reducer_range wc_zero input) p g.

(** What is left of a run of sends. *)
Definition sends_result (xs : list wordCount) (e : task.env)
  : (unit + error) * task.env :=
  if (length xs <=? task.grants e)%nat then
    (inl tt, task.mkEnv (task.polls e) (task.grants e - length xs)
                        (task.ch e ++ xs))
  else
    (inr ctx_Err, task.mkEnv (task.polls e) 0
                             (task.ch e ++ take (task.grants e) xs)).

(** * Proofs *)

Local Open Scope nat_scope.
Import wordCountHeap heap.

(** ** The order of the words is a total preorder *)

Lemma compare_le_trans (a b c : string) :
  String.compare a b ≠ Gt → String.compare b c ≠ Gt → String.compare a c ≠ Gt.
Proof.
  revert b c. induction a as [|x a IH]; intros [|y b] [|z c]; simpl; try congruence.
  unfold Ascii.compare.
  destruct (N.compare_spec (N_of_ascii x) (N_of_ascii y)) as [Hxy|Hxy|Hxy];
    destruct (N.compare_spec (N_of_ascii y) (N_of_ascii z)) as [Hyz|Hyz|Hyz];
    destruct (N.compare_spec (N_of_ascii x) (N_of_ascii z)) as [Hxz|Hxz|Hxz];
    try congruence; try lia.
  apply IH.
Qed.

Lemma str_le_compare (a b : string) : str_le a b ↔ String.compare a b ≠ Gt.
Proof.
  unfold str_le, String.ltb. rewrite (String.compare_antisym a b).
  destruct (String.compare b a); simpl; split; congruence.
Qed.

Lemma str_lt_compare (a b : string) : str_lt a b ↔ String.compare a b = Lt.
Proof. unfold str_lt, String.ltb. destruct (String.compare a b); split; congruence. Qed.

Lemma str_le_refl (a : string) : str_le a a.
Proof.
  apply str_le_compare. intros H.
  pose proof (String.compare_antisym a a) as Ha. rewrite H in Ha. discriminate.
Qed.

Lemma str_le_trans (a b c : string) : str_le a b → str_le b c → str_le a c.
Proof. rewrite !str_le_compare. apply compare_le_trans. Qed.

Lemma str_le_total (a b : string) : str_le a b ∨ str_le b a.
Proof.
  rewrite !str_le_compare, (String.compare_antisym a b).
  destruct (String.compare b a); simpl; auto; left; congruence.
Qed.

Lemma str_le_antisym (a b : string) : str_le a b → str_le b a → a = b.
Proof.
  rewrite !str_le_compare, (String.compare_antisym b a). intros H1 H2.
  apply String.compare_eq_iff. destruct (String.compare a b); simpl in *; congruence.
Qed.

Lemma str_le_empty (a : string) : str_le "" a.
Proof. apply str_le_compare. destruct a; simpl; congruence. Qed.

Lemma str_lt_le (a b : string) : str_lt a b → str_le a b.
Proof. rewrite str_lt_compare, str_le_compare. congruence. Qed.

Lemma str_lt_iff (a b : string) : str_lt a b ↔ str_le a b ∧ a ≠ b.
Proof.
  split.
  - intros H. split; [by apply str_lt_le|]. intros ->.
    apply str_lt_compare in H. pose proof (str_le_refl b) as Hr.
    apply str_le_compare in Hr. pose proof (String.compare_antisym b b) as Ha.
    rewrite H in Ha. discriminate.
  - intros [Hle Hne]. apply str_lt_compare. apply str_le_compare in Hle.
    destruct (String.compare a b) eqn:E; try congruence.
    apply String.compare_eq_iff in E. congruence.
Qed.

Lemma str_le_lt_trans (a b c : string) : str_le a b → str_lt b c → str_lt a c.
Proof.
  intros Hab Hbc. apply str_lt_iff. apply str_lt_iff in Hbc as [Hbc Hne].
  split; [by eapply str_le_trans|]. intros ->. apply Hne. by apply str_le_antisym.
Qed.

Lemma str_lt_le_trans (a b c : string) : str_lt a b → str_le b c → str_lt a c.
Proof.
  intros Hab Hbc. apply str_lt_iff. apply str_lt_iff in Hab as [Hab Hne].
  split; [by eapply str_le_trans|]. intros ->. apply Hne. by apply str_le_antisym.
Qed.

(** ** Parents and children *)

Lemma parent_spec k : 0 < k → k = 2 * parent k + 1 ∨ k = 2 * parent k + 2.
Proof.
  unfold parent. intros Hk.
  pose proof (Nat.div_mod_eq (k - 1) 2) as Hd.
  pose proof (Nat.mod_upper_bound (k - 1) 2) as Hm. lia.
Qed.

Lemma parent_lt k : 0 < k → parent k < k.
Proof. intros Hk. pose proof (parent_spec k Hk). lia. Qed.

Lemma parent_0 : parent 0 = 0.
Proof. reflexivity. Qed.

Lemma parent_left i : parent (2 * i + 1) = i.
Proof. pose proof (parent_spec (2 * i + 1)). lia. Qed.

Lemma parent_right i : parent (2 * i + 2) = i.
Proof. pose proof (parent_spec (2 * i + 2)). lia. Qed.

(** ** Less and Swap *)

Lemma Less_total_lookup (h : t) i j :
  i < length h → j < length h →
  Less h i j = String.ltb (word (h !!! i)) (word (h !!! j)).
Proof.
  intros Hi Hj. unfold Less.
  by rewrite (list_lookup_lookup_total_lt h i Hi), (list_lookup_lookup_total_lt h j Hj).
Qed.

Lemma Less_true (h : t) i j :
  i < length h → j < length h → Less h i j = true → word_lt (h !!! i) (h !!! j).
Proof. intros Hi Hj. by rewrite Less_total_lookup. Qed.

Lemma Less_false (h : t) i j :
  i < length h → j < length h → Less h i j = false → word_le (h !!! j) (h !!! i).
Proof. intros Hi Hj. by rewrite Less_total_lookup. Qed.

Lemma word_le_refl a : word_le a a.
Proof. apply str_le_refl. Qed.

Lemma word_le_trans a b c : word_le a b → word_le b c → word_le a c.
Proof. apply str_le_trans. Qed.

Lemma word_lt_le a b : word_lt a b → word_le a b.
Proof. apply str_lt_le. Qed.

Lemma Swap_length (h : t) i j : length (Swap h i j) = length h.
Proof.
  unfold Swap. destruct (h !! i), (h !! j); by rewrite ?length_insert.
Qed.

Lemma Swap_lookup_total (h : t) i j k :
  i < length h → j < length h →
  Swap h i j !!! k =
    if decide (k = i) then h !!! j else if decide (k = j) then h !!! i else h !!! k.
Proof.
  intros Hi Hj. unfold Swap.
  rewrite (list_lookup_lookup_total_lt h i Hi), (list_lookup_lookup_total_lt h j Hj).
  destruct (decide (k = i)) as [->|Hki].
  - by rewrite list_lookup_total_insert_eq by (by rewrite length_insert).
  - rewrite list_lookup_total_insert_ne by done.
    destruct (decide (k = j)) as [->|Hkj].
    + by rewrite list_lookup_total_insert_eq.
    + by rewrite list_lookup_total_insert_ne.
Qed.

Lemma insert_swap_perm (l : t) i j a b :
  l !! i = Some a → l !! j = Some b → <[i:=b]> (<[j:=a]> l) ≡ₚ l.
Proof.
  revert i j. induction l as [|x l IH]; intros [|i] [|j] Hi Hj; simplify_eq/=; try done.
  - clear IH. revert j Hj. induction l as [|y l IH]; intros [|j] Hj; simplify_eq/=.
    + apply Permutation_swap.
    + etrans; [apply Permutation_swap|]. etrans; [|apply Permutation_swap].
      f_equiv. by apply IH.
  - clear IH. revert i Hi. induction l as [|y l IH]; intros [|i] Hi; simplify_eq/=.
    + apply Permutation_swap.
    + etrans; [apply Permutation_swap|]. etrans; [|apply Permutation_swap].
      f_equiv. by apply IH.
  - f_equiv. by apply IH.
Qed.

Lemma Swap_perm (h : t) i j : Swap h i j ≡ₚ h.
Proof.
  unfold Swap. destruct (h !! i) eqn:Hi, (h !! j) eqn:Hj; try done.
  by apply insert_swap_perm.
Qed.

(** ** up and Push *)

Lemma up_loop_S fuel (h : t) j :
  up_loop (S fuel) h j =
    if (parent j =? j) || negb (Less h j (parent j)) then h
    else up_loop fuel (Swap h (parent j) j) (parent j).
Proof. reflexivity. Qed.

Lemma up_loop_length fuel (h : t) j : length (up_loop fuel h j) = length h.
Proof.
  revert h j. induction fuel as [|fuel IH]; intros h j; [done|].
  rewrite up_loop_S. destruct (_ || _); [done|]. by rewrite IH, Swap_length.
Qed.

Lemma up_loop_perm fuel (h : t) j : up_loop fuel h j ≡ₚ h.
Proof.
  revert h j. induction fuel as [|fuel IH]; intros h j; [done|].
  rewrite up_loop_S. destruct (_ || _); [done|]. by rewrite IH, Swap_perm.
Qed.

Lemma up_step_inv (h : t) j :
  0 < j < length h → up_inv h j → word_lt (h !!! j) (h !!! parent j) →
  up_inv (Swap h (parent j) j) (parent j).
Proof.
  intros Hj [Hord Hgr] Hlt. pose proof (parent_lt j (proj1 Hj)) as Hp.
  apply word_lt_le in Hlt. split.
  - intros k Hk Hne. rewrite Swap_length in Hk.
    pose proof (parent_lt k (proj1 Hk)) as Hpk.
    rewrite !Swap_lookup_total by lia.
    destruct (decide (k = parent j)) as [|_]; [done|].
    destruct (decide (parent k = parent j)) as [Heq|Hne1].
    + destruct (decide (k = j)) as [->|Hkj]; [done|].
      eapply word_le_trans; [exact Hlt|]. rewrite <-Heq. by apply Hord.
    + destruct (decide (parent k = j)) as [Heq|Hne2].
      * destruct (decide (k = j)) as [->|Hkj]; [lia|]. apply Hgr; [lia|lia|done].
      * destruct (decide (k = j)) as [->|Hkj]; [done|]. by apply Hord.
  - intros Hpos c Hc Hpc. rewrite Swap_length in Hc.
    pose proof (parent_lt (parent j) Hpos) as Hpp.
    rewrite !Swap_lookup_total by lia.
    destruct (decide (parent (parent j) = parent j)) as [|_]; [lia|].
    destruct (decide (parent (parent j) = j)) as [|_]; [lia|].
    assert (word_le (h !!! parent (parent j)) (h !!! parent j)) as Hpar
      by (apply Hord; lia).
    pose proof (parent_lt c (proj1 Hc)) as Hpc'.
    destruct (decide (c = parent j)) as [|_]; [lia|].
    destruct (decide (c = j)) as [->|Hcj]; [done|].
    eapply word_le_trans; [exact Hpar|]. rewrite <-Hpc. by apply Hord.
Qed.

Lemma up_loop_ordered fuel (h : t) j :
  j < fuel → j < length h → up_inv h j → heap_ordered (up_loop fuel h j).
Proof.
  revert h j. induction fuel as [|fuel IH]; intros h j Hf Hj Hinv; [lia|].
  rewrite !up_loop_S.
  destruct (decide (parent j = j)) as [Hpj|Hpj].
  - rewrite (proj2 (Nat.eqb_eq _ _) Hpj). simpl.
    assert (j = 0) as -> by (destruct j; [done|pose proof (parent_lt (S j)); lia]).
    intros k Hk _. apply Hinv; lia.
  - rewrite (proj2 (Nat.eqb_neq _ _) Hpj). simpl.
    assert (0 < j) as Hpos by (destruct j; [done|lia]).
    pose proof (parent_lt j Hpos) as Hp.
    destruct (Less h j (parent j)) eqn:HL; simpl.
    + apply Less_true in HL; [|lia..].
      apply IH; [lia|rewrite Swap_length; lia|]. by apply up_step_inv.
    + apply Less_false in HL; [|lia..].
      intros k Hk _. destruct (decide (k = j)) as [->|Hkj]; [done|]. by apply Hinv.
Qed.

(** The bound on the iterations of [up] is never reached. *)
Lemma up_loop_fuel fuel fuel' (h : t) j :
  j < fuel → j < fuel' → up_loop fuel h j = up_loop fuel' h j.
Proof.
  revert fuel' h j. induction fuel as [|fuel IH]; intros [|fuel'] h j Hf Hf'; try lia.
  rewrite !up_loop_S.
  destruct (decide (parent j = j)) as [Hpj|Hpj].
  - by rewrite (proj2 (Nat.eqb_eq _ _) Hpj).
  - rewrite (proj2 (Nat.eqb_neq _ _) Hpj). simpl.
    destruct (negb _); [done|].
    assert (0 < j) as Hpos by (destruct j; [done|lia]).
    pose proof (parent_lt j Hpos). apply IH; lia.
Qed.

Lemma length_snoc (h : t) x : length (h ++ [x]) = S (length h).
Proof. rewrite length_app. simpl. lia. Qed.

Lemma Push_length (h : t) x : length (heap.Push h x) = S (length h).
Proof.
  unfold heap.Push, up. rewrite up_loop_length. apply length_snoc.
Qed.

Lemma Push_perm (h : t) x : heap.Push h x ≡ₚ x :: h.
Proof.
  unfold heap.Push, up. rewrite up_loop_perm. unfold wordCountHeap.Push.
  by rewrite Permutation_app_comm.
Qed.

Lemma Push_ordered (h : t) x : heap_ordered h → heap_ordered (heap.Push h x).
Proof.
  intros Hh. unfold heap.Push, up, wordCountHeap.Push, Len.
  pose proof (length_snoc h x) as Hlen. rewrite Hlen.
  replace (S (length h) - 1) with (length h) by lia.
  apply up_loop_ordered; [lia|lia|]. split.
  - intros k Hk Hne. rewrite Hlen in Hk.
    pose proof (parent_lt k (proj1 Hk)).
    rewrite !lookup_total_app_l by lia. apply Hh; [lia|by intros []].
  - intros Hpos c Hc Hpc. rewrite Hlen in Hc.
    pose proof (parent_spec c (proj1 Hc)). lia.
Qed.

(** ** down and Pop *)

Lemma down_loop_S fuel (h : t) i n :
  down_loop (S fuel) h i n =
    let j1 := 2 * i + 1 in
    if n <=? j1 then h
    else
      let j2 := j1 + 1 in
      let j := if (j2 <? n) && Less h j2 j1 then j2 else j1 in
      if negb (Less h j i) then h
      else down_loop fuel (Swap h i j) j n.
Proof. reflexivity. Qed.

Lemma down_loop_length fuel (h : t) i n : length (down_loop fuel h i n) = length h.
Proof.
  revert h i. induction fuel as [|fuel IH]; intros h i; [done|].
  rewrite down_loop_S. cbv zeta. destruct (n <=? _); [done|].
  destruct (negb _); [done|]. by rewrite IH, Swap_length.
Qed.

Lemma down_loop_perm fuel (h : t) i n : down_loop fuel h i n ≡ₚ h.
Proof.
  revert h i. induction fuel as [|fuel IH]; intros h i; [done|].
  rewrite down_loop_S. cbv zeta. destruct (n <=? _); [done|].
  destruct (negb _); [done|]. by rewrite IH, Swap_perm.
Qed.

(** [down h i n] leaves the slots from [n] on as they are. *)
Lemma down_loop_above fuel (h : t) i n m :
  n ≤ length h → n ≤ m → down_loop fuel h i n !!! m = h !!! m.
Proof.
  revert h i. induction fuel as [|fuel IH]; intros h i Hn Hm; [done|].
  rewrite down_loop_S. cbv zeta. destruct (n <=? 2 * i + 1) eqn:Hj1; [done|].
  apply Nat.leb_gt in Hj1.
  set (j := if _ && _ then _ else _).
  assert (i < j < n) as Hj.
  { subst j. destruct (2 * i + 1 + 1 <? n) eqn:Hj2; cbn [andb].
    - apply Nat.ltb_lt in Hj2. destruct (Less _ _ _); lia.
    - lia. }
  destruct (negb _); [done|].
  rewrite IH by (rewrite ?Swap_length; lia).
  rewrite Swap_lookup_total by lia.
  destruct (decide (m = i)); [lia|]. destruct (decide (m = j)); [lia|done].
Qed.

Lemma down_step_inv (h : t) i j n :
  n ≤ length h → i < j < n → parent j = i →
  (∀ c, 0 < c < n → parent c = i → word_le (h !!! j) (h !!! c)) →
  word_lt (h !!! j) (h !!! i) →
  down_inv h i n → down_inv (Swap h i j) j n.
Proof.
  intros Hn Hj Hpj Hmin Hlt [Hord Hgr]. apply word_lt_le in Hlt. split.
  - intros k Hk Hne. pose proof (parent_lt k (proj1 Hk)) as Hpk.
    rewrite !Swap_lookup_total by lia.
    destruct (decide (parent k = i)) as [Hki|Hki].
    + destruct (decide (k = i)) as [|_]; [lia|].
      destruct (decide (k = j)) as [->|Hkj]; [done|]. by apply Hmin.
    + destruct (decide (parent k = j)) as [|_]; [done|].
      destruct (decide (k = i)) as [->|Hk'].
      * apply Hgr; [lia|lia|done].
      * destruct (decide (k = j)) as [->|Hkj]; [done|]. by apply Hord.
  - intros Hpos c Hc Hpc. pose proof (parent_lt c (proj1 Hc)) as Hpc'.
    rewrite !Swap_lookup_total by lia. rewrite Hpj.
    destruct (decide (i = i)) as [_|]; [|done].
    destruct (decide (c = i)) as [|_]; [lia|].
    destruct (decide (c = j)) as [|_]; [lia|].
    rewrite <-Hpc. apply Hord; [lia|lia].
Qed.

Lemma down_loop_ordered fuel (h : t) i n :
  n ≤ length h → n ≤ fuel + i → down_inv h i n →
  ordered_upto n (down_loop fuel h i n).
Proof.
  revert h i. induction fuel as [|fuel IH]; intros h i Hn Hf Hinv.
  - intros k Hk _. pose proof (parent_lt k (proj1 Hk)).
    destruct Hinv as [Hord _]. apply Hord; [lia|]. cbv beta. lia.
  - rewrite down_loop_S. cbv zeta.
    destruct (n <=? 2 * i + 1) eqn:Hj1.
    { apply Nat.leb_le in Hj1. intros k Hk _.
      pose proof (parent_spec k (proj1 Hk)).
      destruct Hinv as [Hord _]. apply Hord; [lia|]. cbv beta. lia. }
    apply Nat.leb_gt in Hj1.
    set (j := if _ && _ then _ else _).
    assert (i < j < n ∧ parent j = i ∧
            ∀ c, 0 < c < n → parent c = i → word_le (h !!! j) (h !!! c))
      as (Hj & Hpj & Hmin).
    { subst j. destruct (2 * i + 1 + 1 <? n) eqn:Hj2; cbn [andb].
      - apply Nat.ltb_lt in Hj2.
        destruct (Less h (2 * i + 1 + 1) (2 * i + 1)) eqn:HL.
        + apply Less_true in HL; [|lia..].
          split; [lia|]. split; [pose proof (parent_right i); by replace (2 * i + 1 + 1) with (2 * i + 2) by lia|].
          intros c Hc Hpc. pose proof (parent_spec c (proj1 Hc)) as [Hc'|Hc'].
          * replace c with (2 * i + 1) by lia. by apply word_lt_le.
          * replace c with (2 * i + 1 + 1) by lia. apply word_le_refl.
        + apply Less_false in HL; [|lia..].
          split; [lia|]. split; [apply parent_left|].
          intros c Hc Hpc. pose proof (parent_spec c (proj1 Hc)) as [Hc'|Hc'].
          * replace c with (2 * i + 1) by lia. apply word_le_refl.
          * by replace c with (2 * i + 1 + 1) by lia.
      - apply Nat.ltb_ge in Hj2.
        split; [lia|]. split; [apply parent_left|].
        intros c Hc Hpc. pose proof (parent_spec c (proj1 Hc)) as [Hc'|Hc'].
        * replace c with (2 * i + 1) by lia. apply word_le_refl.
        * lia. }
    clearbody j.
    destruct (Less h j i) eqn:HL; simpl.
    + apply Less_true in HL; [|lia..].
      apply IH; [by rewrite Swap_length|lia|]. by apply down_step_inv.
    + apply Less_false in HL; [|lia..].
      intros k Hk _. destruct (decide (parent k = i)) as [Hki|Hki].
      * rewrite Hki. eapply word_le_trans; [exact HL|]. by apply Hmin.
      * destruct Hinv as [Hord _]. by apply Hord.
Qed.

(** The bound on the iterations of [down] is never reached. *)
Lemma down_loop_fuel fuel fuel' (h : t) i n :
  n ≤ fuel + i → n ≤ fuel' + i → down_loop fuel h i n = down_loop fuel' h i n.
Proof.
  revert fuel' h i. induction fuel as [|fuel IH]; intros [|fuel'] h i Hf Hf'.
  - done.
  - rewrite down_loop_S. cbv zeta.
    by rewrite (proj2 (Nat.leb_le n (2 * i + 1))) by lia.
  - rewrite down_loop_S. cbv zeta.
    by rewrite (proj2 (Nat.leb_le n (2 * i + 1))) by lia.
  - rewrite !down_loop_S. cbv zeta.
    destruct (n <=? 2 * i + 1) eqn:Hj1; [done|]. apply Nat.leb_gt in Hj1.
    set (j := if _ && _ then _ else _).
    assert (i < j) as Hj by (subst j; destruct (_ && _); lia).
    destruct (negb _); [done|]. apply IH; lia.
Qed.

Lemma heap_root_min (h : t) k :
  heap_ordered h → k < length h → word_le (h !!! 0) (h !!! k).
Proof.
  intros Hh. induction (lt_wf k) as [k _ IH]. intros Hk.
  destruct (decide (k = 0)) as [->|Hk0]; [apply word_le_refl|].
  assert (0 < k) as Hpos by lia. pose proof (parent_lt k Hpos).
  eapply word_le_trans; [apply (IH (parent k)); lia|].
  apply Hh; [lia|by intros []].
Qed.

Lemma heap_root_min_elem (h : t) x :
  heap_ordered h → x ∈ h → word_le (h !!! 0) x.
Proof.
  intros Hh [k Hk]%list_elem_of_lookup.
  pose proof (lookup_lt_Some _ _ _ Hk) as Hlt.
  rewrite <-(list_lookup_total_correct _ _ _ Hk). by apply heap_root_min.
Qed.

Lemma Pop_spec (h : t) :
  heap_ordered h → 0 < length h →
  ∃ h', heap.Pop h = Some (h !!! 0, h') ∧ heap_ordered h' ∧
        h ≡ₚ h !!! 0 :: h' ∧ length h' = length h - 1.
Proof.
  intros Hh Hlen. unfold heap.Pop, Len, down.
  rewrite (proj2 (Nat.eqb_neq _ _)) by lia.
  set (n := length h - 1).
  set (h1 := Swap h 0 n).
  assert (length h1 = length h) as Hlen1 by apply Swap_length.
  set (h2 := down_loop n h1 0 n).
  assert (length h2 = length h) as Hlen2 by (subst h2; by rewrite down_loop_length).
  assert (h2 !!! n = h !!! 0) as Hlast.
  { subst h2. rewrite down_loop_above by lia. subst h1.
    rewrite Swap_lookup_total by lia.
    destruct (decide (n = 0)) as [->|_]; [done|]. by destruct (decide (n = n)). }
  assert (ordered_upto n h2) as Hord.
  { subst h2. apply down_loop_ordered; [lia|lia|]. split.
    - intros k Hk Hne. pose proof (parent_lt k (proj1 Hk)).
      subst h1. rewrite !Swap_lookup_total by lia.
      destruct (decide (parent k = 0)) as [|_]; [done|].
      destruct (decide (parent k = n)) as [|_]; [lia|].
      destruct (decide (k = 0)) as [|_]; [lia|].
      destruct (decide (k = n)) as [|_]; [lia|].
      apply Hh; [lia|by intros []].
    - lia. }
  assert (h2 !! n = Some (h !!! 0)) as Hlk.
  { rewrite <-Hlast. apply list_lookup_lookup_total_lt. lia. }
  exists (take n h2). unfold wordCountHeap.Pop. rewrite Hlen2. fold n. rewrite Hlk.
  split; [done|]. split; [|split].
  - unfold heap_ordered. rewrite length_take_le by lia.
    intros k Hk _. pose proof (parent_lt k (proj1 Hk)).
    rewrite !lookup_total_take_lt by lia. apply Hord; [done|by intros []].
  - transitivity h2.
    + subst h2 h1. by rewrite down_loop_perm, Swap_perm.
    + rewrite <-(take_drop_middle h2 n (h !!! 0) Hlk) at 1.
      rewrite (drop_ge h2 (S n)) by lia.
      by rewrite Permutation_app_comm.
  - rewrite length_take_le; lia.
Qed.

Lemma Pop_empty : heap.Pop [] = None.
Proof. reflexivity. Qed.

Lemma heap_ordered_nil : heap_ordered [].
Proof. intros k Hk. simpl in Hk. lia. Qed.

(** ** The two loops of the sorter *)

Lemma sorter_drain_from (h : t) input :
  heap_ordered h →
  heap_ordered (fold_left heap.Push input h) ∧ fold_left heap.Push input h ≡ₚ h ++ input.
Proof.
  revert h. induction input as [|x input IH]; intros h Hh; simpl.
  - by rewrite app_nil_r.
  - destruct (IH (heap.Push h x) (Push_ordered h x Hh)) as [Ho Hp].
    split; [done|]. rewrite Hp, Push_perm. by rewrite <-Permutation_middle.
Qed.

Lemma sorter_drain_ordered input : heap_ordered (sorter_drain input).
Proof. apply sorter_drain_from, heap_ordered_nil. Qed.

Lemma sorter_drain_perm input : sorter_drain input ≡ₚ input.
Proof. apply (sorter_drain_from [] input heap_ordered_nil). Qed.

Lemma sorter_emit_spec fuel (h : t) :
  heap_ordered h → length h ≤ fuel →
  sorter_emit fuel h ≡ₚ h ∧ StronglySorted word_le (sorter_emit fuel h).
Proof.
  revert h. induction fuel as [|fuel IH]; intros h Hh Hf.
  - destruct h; simpl in *; [|lia]. split; [done|constructor].
  - simpl. unfold Len. destruct (decide (length h = 0)) as [H0|H0].
    + rewrite H0. simpl. destruct h; [|done]. split; [done|constructor].
    + rewrite (proj2 (Nat.ltb_lt _ _)) by lia.
      destruct (Pop_spec h Hh) as (h' & -> & Hh' & Hp & Hl); [lia|].
      destruct (IH h' Hh') as [Hp' Hs']; [lia|]. split.
      * rewrite Hp'. by symmetry.
      * apply StronglySorted_cons. split; [|done].
        apply Forall_forall. intros x Hx. apply heap_root_min_elem; [done|].
        rewrite Hp. apply elem_of_cons. right. by rewrite <-Hp'.
Qed.

(** The bound on the iterations of the second loop is never reached. *)
Lemma sorter_emit_fuel fuel (h : t) :
  heap_ordered h → length h ≤ fuel →
  sorter_emit fuel h = sorter_emit (length h) h.
Proof.
  revert h. induction fuel as [|fuel IH]; intros h Hh Hf.
  - by replace (length h) with 0 by lia.
  - destruct (decide (length h = 0)) as [H0|H0].
    + rewrite H0. simpl. unfold Len. by rewrite H0.
    + destruct (Pop_spec h Hh) as (h' & HP & Hh' & Hp & Hl); [lia|].
      replace (length h) with (S (length h')) by lia. simpl. unfold Len.
      rewrite (proj2 (Nat.ltb_lt 0 (length h))) by lia. rewrite HP.
      f_equal. apply IH; [done|lia].
Qed.

Lemma sorter_perm input : sorter input ≡ₚ input.
Proof.
  unfold sorter. etrans; [|apply sorter_drain_perm].
  by apply sorter_emit_spec; [apply sorter_drain_ordered|].
Qed.

Lemma sorter_sorted input : StronglySorted word_le (sorter input).
Proof.
  unfold sorter. by apply sorter_emit_spec; [apply sorter_drain_ordered|].
Qed.

(** ** Sequences of pushes and pops keep the heap order *)

Lemma Pop_Some_length (h : t) v h' : heap.Pop h = Some (v, h') → 0 < length h.
Proof.
  unfold heap.Pop, Len. destruct (length h =? 0) eqn:E; [done|].
  apply Nat.eqb_neq in E. lia.
Qed.

Lemma heap_run_ordered ops (h h' : t) :
  heap_ordered h → heap_run ops h = Some h' → heap_ordered h'.
Proof.
  revert h. induction ops as [|[x|] ops IH]; intros h Hh Hrun; simpl in Hrun.
  - by simplify_eq.
  - eapply IH; [|done]. by apply Push_ordered.
  - destruct (heap.Pop h) as [[v h1]|] eqn:HP; [|done].
    destruct (Pop_spec h Hh (Pop_Some_length _ _ _ HP)) as (h2 & HP' & Hh2 & _).
    rewrite HP in HP'. simplify_eq. by eapply IH.
Qed.

(** ** The sorter machine *)

Lemma sorter_run_add n m s : sorter_run (n + m) s = sorter_run m (sorter_run n s).
Proof. revert s. induction n as [|n IH]; intros s; simpl; [done|]. apply IH. Qed.

Lemma sorter_run_drain input (h : t) :
  sorter_run (length input) (mkSorterState Draining input h []) =
    mkSorterState Draining [] (fold_left heap.Push input h) [].
Proof.
  revert h. induction input as [|x input IH]; intros h; simpl; [done|]. apply IH.
Qed.

Lemma sorter_run_emit fuel (h : t) out :
  heap_ordered h → length h ≤ fuel →
  sorter_run (S (length h)) (mkSorterState Emitting [] h out) =
    mkSorterState Exited [] [] (out ++ sorter_emit fuel h).
Proof.
  revert h out. induction fuel as [|fuel IH]; intros h out Hh Hf.
  - destruct h; simpl in *; [|lia]. by rewrite app_nil_r.
  - destruct (decide (length h = 0)) as [H0|H0].
    + destruct h; [|done]. simpl. by rewrite app_nil_r.
    + destruct (Pop_spec h Hh) as (h' & HP & Hh' & Hp & Hl); [lia|].
      replace (S (length h)) with (S (S (length h'))) by lia.
      change (sorter_run (S (S (length h'))) ?s) with
        (sorter_run (S (length h')) (sorter_step s)).
      unfold sorter_step at 1. cbn [phase wcHeap pending sent sorter_emit].
      unfold Len. rewrite (proj2 (Nat.ltb_lt _ _)) by lia. rewrite HP.
      rewrite IH by (done || lia). by rewrite <-app_assoc.
Qed.

Lemma sorter_run_exits input :
  sorter_run (2 * length input + 2) (sorter_init input) =
    mkSorterState Exited [] [] (sorter input).
Proof.
  pose proof (sorter_drain_ordered input) as Hh.
  pose proof (sorter_drain_perm input) as Hp. apply Permutation_length in Hp.
  replace (2 * length input + 2) with
    (length input + (1 + S (length (sorter_drain input)))) by lia.
  unfold sorter_init. rewrite sorter_run_add, sorter_run_drain, sorter_run_add.
  change (sorter_run 1 ?s) with (sorter_step s). unfold sorter_step at 1.
  cbn [phase pending wcHeap sent].
  change (fold_left heap.Push input []) with (sorter_drain input).
  by rewrite (sorter_run_emit (length (sorter_drain input))).
Qed.

Lemma sorter_step_barrier s : sorter_barrier s → sorter_barrier (sorter_step s).
Proof.
  unfold sorter_barrier, sorter_step.
  intros [[Hph Hs]|[Hph Hp]].
  - rewrite Hph. destruct (pending s); simpl; [right|left]; split; (done || congruence).
  - destruct (phase s) eqn:E; [done| |right; simpl; split; (done || congruence)].
    destruct (0 <? _); [|right; simpl; split; (done || congruence)].
    destruct (heap.Pop _) as [[v h']|]; right; simpl; split; (done || congruence).
Qed.

Lemma sorter_run_barrier n s : sorter_barrier s → sorter_barrier (sorter_run n s).
Proof.
  revert s. induction n as [|n IH]; intros s Hs; simpl; [done|].
  by apply IH, sorter_step_barrier.
Qed.

(** ** The reducer *)

Lemma reducer_step_same wc inp :
  word wc = word inp →
  reducer_step wc inp =
    ([], mkWordCount (word wc) (int_add (count wc) (count inp))).
Proof. intros Heq. unfold reducer_step. rewrite Heq, String.eqb_refl. simpl. by rewrite Heq. Qed.

Lemma reducer_step_new wc inp :
  word wc ≠ word inp →
  reducer_step wc inp =
    (if String.eqb (word wc) "" then [] else [wc],
     mkWordCount (word inp) (int_add (count inp) (count inp))).
Proof.
  intros Hne. unfold reducer_step.
  rewrite (proj2 (String.eqb_neq _ _) Hne). simpl.
  by destruct (String.eqb (word wc) "").
Qed.

Lemma reducer_loop_sorted input wc :
  StronglySorted word_le (wc :: input) →
  StronglySorted word_lt (reducer_loop wc input) ∧
  Forall (word_le wc) (reducer_loop wc input).
Proof.
  revert wc. induction input as [|inp rest IH]; intros wc Hs; simpl.
  { split; constructor. }
  apply StronglySorted_cons in Hs as [Hall Hs].
  apply Forall_cons in Hall as [Hle Hall].
  apply StronglySorted_cons in Hs as [Hrest Hs].
  destruct (decide (word wc = word inp)) as [Heq|Hne].
  - rewrite reducer_step_same by done. simpl.
    set (wc' := mkWordCount (word wc) _).
    destruct (IH wc') as [Hs' Hall'].
    { apply StronglySorted_cons. split; [|done].
      eapply Forall_impl; [exact Hall|]. intros r Hr. exact Hr. }
    split; [done|].
    eapply Forall_impl; [exact Hall'|]. intros r Hr. exact Hr.
  - rewrite reducer_step_new by done.
    set (wc' := mkWordCount (word inp) _).
    destruct (IH wc') as [Hs' Hall'].
    { apply StronglySorted_cons. split; [|done].
      eapply Forall_impl; [exact Hrest|]. intros r Hr. exact Hr. }
    assert (Forall (word_lt wc) (reducer_loop wc' rest)) as Hlt.
    { eapply Forall_impl; [exact Hall'|]. intros r Hr.
      unfold word_lt, word_le in *. simpl in Hr.
      eapply str_lt_le_trans; [|exact Hr]. by apply str_lt_iff. }
    assert (Forall (word_le wc) (reducer_loop wc' rest)) as Hle'.
    { eapply Forall_impl; [exact Hlt|]. intros r. apply word_lt_le. }
    destruct (String.eqb (word wc) ""); simpl; [done|].
    split.
    + by apply StronglySorted_cons.
    + apply Forall_cons. split; [apply word_le_refl|done].
Qed.

Lemma word_lt_NoDup (l : list wordCount) :
  StronglySorted word_lt l → NoDup (map word l).
Proof.
  induction 1 as [|x l Hs IH Hall]; simpl; constructor; [|done].
  intros (y & Hy & Hin)%list_elem_of_fmap.
  rewrite Forall_forall in Hall. specialize (Hall y Hin).
  apply str_lt_iff in Hall as [_ Hne]. done.
Qed.

Lemma reducer_loop_nonempty input wc :
  Forall (λ r, word r ≠ "") (reducer_loop wc input).
Proof.
  revert wc. induction input as [|inp rest IH]; intros wc; simpl; [constructor|].
  destruct (decide (word wc = word inp)) as [Heq|Hne].
  - rewrite reducer_step_same by done. simpl. apply IH.
  - rewrite reducer_step_new by done.
    destruct (String.eqb (word wc) "") eqn:E; simpl; [apply IH|].
    apply Forall_cons. split; [by apply String.eqb_neq|apply IH].
Qed.

(** The count held under the empty word is never seen. *)
Lemma reducer_loop_empty_word input n m :
  reducer_loop (mkWordCount "" n) input = reducer_loop (mkWordCount "" m) input.
Proof.
  revert n m. induction input as [|inp rest IH]; intros n m; simpl; [done|].
  destruct (decide ("" = word inp)) as [Heq|Hne].
  - rewrite !reducer_step_same by done. simpl. apply IH.
  - by rewrite !reducer_step_new by done.
Qed.

Lemma reducer_empty_word_ignored c input :
  reducer (mkWordCount "" c :: input) = reducer input.
Proof.
  unfold reducer. cbn [reducer_loop]. rewrite reducer_step_same by done.
  cbn [app]. apply (reducer_loop_empty_word input _ 0).
Qed.

(** ** Strings *)

Lemma string_app_cons c (s t : string) : String c s +:+ t = String c (s +:+ t).
Proof. reflexivity. Qed.

Lemma string_app_nil_l (s : string) : "" +:+ s = s.
Proof. reflexivity. Qed.

Lemma string_app_nil_r (s : string) : s +:+ "" = s.
Proof.
  induction s as [|c s IH]; [done|]. by rewrite string_app_cons, IH.
Qed.

Lemma string_app_assoc (s1 s2 s3 : string) :
  (s1 +:+ s2) +:+ s3 = s1 +:+ (s2 +:+ s3).
Proof.
  induction s1 as [|c s1 IH]; [done|]. by rewrite !string_app_cons, IH.
Qed.

Lemma string_filter_app p (s1 s2 : string) :
  string_filter p (s1 +:+ s2) = string_filter p s1 +:+ string_filter p s2.
Proof.
  induction s1 as [|c s1 IH]; [done|]. rewrite string_app_cons. simpl.
  destruct (p c); by rewrite ?string_app_cons, IH.
Qed.

Lemma string_app_empty (s1 s2 : string) : s1 +:+ s2 = "" → s1 = "" ∧ s2 = "".
Proof. destruct s1; [done|]. rewrite string_app_cons. discriminate. Qed.

Lemma substring_drop (k : nat) (s : string) :
  k ≤ String.length s → String.substring 0 k s +:+ string_drop k s = s.
Proof.
  revert k. induction s as [|c s IH]; intros [|k] Hk; simpl in *; try done; try lia.
  by rewrite string_app_cons, IH by lia.
Qed.

Lemma token_string_app (t1 t2 : list (Z * string)) :
  token_string (t1 ++ t2) = token_string t1 +:+ token_string t2.
Proof.
  induction t1 as [|[r b] t1 IH]; simpl; [done|].
  by rewrite IH, string_app_assoc.
Qed.

(** ** Decoding *)

Local Open Scope Z_scope.

Lemma byte_val_range c : 0 <= utf8.byte_val c < 256.
Proof.
  unfold utf8.byte_val. pose proof (N_ascii_bounded c). lia.
Qed.

Lemma is_alpha_ge r : 128 <= r → is_alpha r = false.
Proof. unfold is_alpha. lia. Qed.

Lemma not_letter_ge c : 128 <= utf8.byte_val c → is_letter_byte c = false.
Proof. apply is_alpha_ge. Qed.

Lemma lor_lower a b : 0 <= b → a <= Z.lor a b.
Proof.
  intros Hb. pose proof (Z.sub_lor_l_same_l b a) as H.
  assert (0 <= Z.land b (Z.lnot a)) by (apply Z.land_nonneg; auto). lia.
Qed.

Lemma lor_lower_r a b : 0 <= a → b <= Z.lor a b.
Proof. rewrite Z.lor_comm. apply lor_lower. Qed.

Lemma first_cases b : 0 <= b < 256 →
  (b < 0x80 ∧ utf8.first b = 0xF0) ∨
  (0x80 <= b ∧ utf8.first b = 0xF1) ∨
  (0xC2 <= b <= 0xDF ∧ utf8.first b = 0x02) ∨
  (b = 0xE0 ∧ utf8.first b = 0x13) ∨
  (0xE1 <= b <= 0xEF ∧ utf8.first b = 0x03) ∨
  (b = 0xED ∧ utf8.first b = 0x23) ∨
  (b = 0xF0 ∧ utf8.first b = 0x34) ∨
  (0xF1 <= b <= 0xF3 ∧ utf8.first b = 0x04) ∨
  (b = 0xF4 ∧ utf8.first b = 0x44).
Proof. intros Hb. unfold utf8.first. repeat case_match; lia. Qed.

Lemma rune2_ge s0 s1 :
  0xC2 <= s0 <= 0xDF → 0 <= s1 →
  128 <= Z.lor (Z.shiftl (Z.land s0 0x1F) 6) (Z.land s1 0x3F).
Proof.
  intros H0 H1. etrans; [|apply lor_lower; apply Z.land_nonneg; by left].
  rewrite Z.shiftl_mul_pow2 by lia. change 0x1F with (Z.ones 5).
  rewrite Z.land_ones by lia. change (2 ^ 5) with 32. change (2 ^ 6) with 64.
  Z.div_mod_to_equations. lia.
Qed.

Lemma rune3_ge s0 s1 s2 :
  0xE0 <= s0 <= 0xEF → 0x80 <= s1 <= 0xBF → (s0 = 0xE0 → 0xA0 <= s1) → 0 <= s2 →
  128 <= Z.lor (Z.lor (Z.shiftl (Z.land s0 0x0F) 12)
                      (Z.shiftl (Z.land s1 0x3F) 6)) (Z.land s2 0x3F).
Proof.
  intros H0 H1 HE H2.
  assert (0 <= Z.shiftl (Z.land s0 15) 12) as HA
    by (apply Z.shiftl_nonneg, Z.land_nonneg; by right).
  assert (0 <= Z.shiftl (Z.land s1 63) 6) as HB
    by (apply Z.shiftl_nonneg, Z.land_nonneg; by right).
  etrans; [|apply lor_lower; apply Z.land_nonneg; by left].
  pose proof (lor_lower (Z.shiftl (Z.land s0 15) 12) _ HB) as HlA.
  pose proof (lor_lower_r _ (Z.shiftl (Z.land s1 63) 6) HA) as HlB.
  revert HlA HlB. rewrite !Z.shiftl_mul_pow2 by lia.
  change 15 with (Z.ones 4). change 63 with (Z.ones 6).
  rewrite !Z.land_ones by lia.
  change (2 ^ 4) with 16. change (2 ^ 6) with 64. change (2 ^ 12) with 4096.
  intros HlA HlB. Z.div_mod_to_equations. lia.
Qed.

Lemma rune4_ge s0 s1 s2 s3 :
  0xF0 <= s0 <= 0xF4 → 0x80 <= s1 <= 0xBF → (s0 = 0xF0 → 0x90 <= s1) →
  0 <= s2 → 0 <= s3 →
  128 <= Z.lor (Z.lor (Z.lor (Z.shiftl (Z.land s0 0x07) 18)
                             (Z.shiftl (Z.land s1 0x3F) 12))
                      (Z.shiftl (Z.land s2 0x3F) 6)) (Z.land s3 0x3F).
Proof.
  intros H0 H1 HE H2 H3.
  assert (0 <= Z.shiftl (Z.land s0 7) 18) as HA
    by (apply Z.shiftl_nonneg, Z.land_nonneg; by right).
  assert (0 <= Z.shiftl (Z.land s1 63) 12) as HB
    by (apply Z.shiftl_nonneg, Z.land_nonneg; by right).
  assert (0 <= Z.shiftl (Z.land s2 63) 6) as HC
    by (apply Z.shiftl_nonneg, Z.land_nonneg; by right).
  etrans; [|apply lor_lower; apply Z.land_nonneg; by left].
  etrans; [|apply lor_lower; done].
  pose proof (lor_lower (Z.shiftl (Z.land s0 7) 18) _ HB) as HlA.
  pose proof (lor_lower_r _ (Z.shiftl (Z.land s1 63) 12) HA) as HlB.
  revert HlA HlB. rewrite !Z.shiftl_mul_pow2 by lia.
  change 7 with (Z.ones 3). change 63 with (Z.ones 6).
  rewrite !Z.land_ones by lia.
  change (2 ^ 3) with 8. change (2 ^ 6) with 64. change (2 ^ 12) with 4096.
  change (2 ^ 18) with 262144.
  intros HlA HlB. Z.div_mod_to_equations. lia.
Qed.

Lemma substring_0_0 (s : string) : String.substring 0 0 s = "".
Proof. by destruct s. Qed.

Ltac zconst k := lazymatch k with Z0 => idtac | Zpos _ => idtac end.

Ltac fold_class K :=
  let a := eval vm_compute in (K >=? 240) in change (K >=? 240) with a;
  let b := eval vm_compute in (Z.testbit K 0) in
    try change (Z.testbit K 0) with b;
  let b := eval vm_compute in (Z.land K 7) in try change (Z.land K 7) with b;
  let p := eval vm_compute in (utf8.acceptRanges (Z.shiftr K 4)) in
    try change (utf8.acceptRanges (Z.shiftr K 4)) with p;
  cbv beta iota zeta;
  repeat match goal with
    | |- context [?a <=? ?b] =>
        zconst a; zconst b;
        let v := eval vm_compute in (a <=? b) in change (a <=? b) with v
    | |- context [?a <? ?b] =>
        zconst a; zconst b;
        let v := eval vm_compute in (a <? b) in change (a <? b) with v
    end;
  cbv beta iota.

Ltac bool_hyps :=
  repeat match goal with
    | H : (_ <? _) = true |- _ => apply Z.ltb_lt in H
    | H : (_ <? _) = false |- _ => apply Z.ltb_ge in H
    | H : _ || _ = false |- _ => apply orb_false_elim in H as [? ?]
    | H : _ || _ = true |- _ => clear H
    end.

Ltac decode_chunk :=
  cbn [String.substring]; rewrite ?substring_0_0;
  lazymatch goal with
  | |- chunk_ok (utf8.byte_val ?c, _) =>
      destruct (is_alpha (utf8.byte_val c)) eqn:E;
      [ left; split; [done|by exists c]
      | right; split; [done|];
        cbn [string_filter snd]; unfold is_letter_byte; by rewrite E ]
  | |- chunk_ok (65533, _) =>
      right; split; [reflexivity|];
      cbn [string_filter snd]; rewrite not_letter_ge by lia; reflexivity
  | |- chunk_ok (_, String _ (String _ EmptyString)) =>
      right; split; [apply is_alpha_ge, rune2_ge; lia|];
      cbn [string_filter snd]; rewrite !not_letter_ge by lia; reflexivity
  | |- chunk_ok (_, String _ (String _ (String _ EmptyString))) =>
      right; split; [apply is_alpha_ge, rune3_ge; lia|];
      cbn [string_filter snd]; rewrite !not_letter_ge by lia; reflexivity
  | |- chunk_ok (_, String _ (String _ (String _ (String _ EmptyString)))) =>
      right; split; [apply is_alpha_ge, rune4_ge; lia|];
      cbn [string_filter snd]; rewrite !not_letter_ge by lia; reflexivity
  end.

Ltac decode_leaf :=
  bool_hyps;
  lazymatch goal with
  | |- (_, 0%nat) = _ → _ => exfalso; lia
  | _ => intros [= <- <-]; split; [cbn [String.length]; lia|decode_chunk]
  end.

Lemma decode_ok c t r size :
  utf8.DecodeRuneInString (String c t) = (r, size) →
  (1 ≤ size ≤ String.length (String c t))%nat ∧
  chunk_ok (r, String.substring 0 size (String c t)).
Proof.
  unfold utf8.DecodeRuneInString.
  pose proof (byte_val_range c) as Hc.
  assert (Hb : ∀ c', 0 <= utf8.byte_val c' < 256) by apply byte_val_range.
  change (utf8.byte_at (String c t) 0) with (utf8.byte_val c).
  unfold utf8.locb, utf8.hicb, utf8.RuneError.
  destruct (first_cases _ Hc) as
    [[H0 Hf]|[[H0 Hf]|[[H0 Hf]|[[H0 Hf]|[[H0 Hf]|[[H0 Hf]|[[H0 Hf]|[[H0 Hf]|[H0 Hf]]]]]]]]];
    rewrite Hf; cbv zeta;
    destruct t as [|c1 [|c2 [|c3 t3]]];
    cbn [utf8.byte_at String.get String.length];
    repeat match goal with
      | |- context [Z.of_nat ?n] =>
          lazymatch n with
          | S (S (S (S (String.length _)))) => fail
          | _ => let v := eval vm_compute in (Z.of_nat n) in
                 change (Z.of_nat n) with v
          end
      end.
  all: try pose proof (Hb c1) as Hc1; try pose proof (Hb c2) as Hc2;
       try pose proof (Hb c3) as Hc3.
  all: match goal with |- context [?k >=? 240] => fold_class k end.
  all: repeat match goal with
         | |- context [if ?b then _ else _] => destruct b eqn:?
         end.
  all: decode_leaf.
Qed.

Local Open Scope nat_scope.

(** [range] cuts a string into chunks: nothing is lost, and every chunk is
    a letter or holds none. *)
Lemma range_from_spec (s : string) skip :
  skip ≤ String.length s →
  token_string (utf8.range_from skip s) = string_drop skip s ∧
  Forall chunk_ok (utf8.range_from skip s).
Proof.
  revert skip. induction s as [|c t IH]; intros skip Hskip.
  { destruct skip; simpl; split; done || constructor. }
  destruct skip as [|k].
  - cbn [utf8.range_from string_drop].
    destruct (utf8.DecodeRuneInString (String c t)) as [r size] eqn:Hd.
    destruct (decode_ok c t r size Hd) as [Hsize Hchunk].
    cbn [String.length] in Hsize.
    destruct (IH (size - 1)) as [Hbytes Hall]; [lia|].
    split; [|by constructor].
    cbn [token_string]. rewrite Hbytes.
    destruct size as [|size]; [lia|]. cbn [String.substring].
    replace (S size - 1) with size by lia.
    rewrite string_app_cons. f_equal. apply substring_drop. lia.
  - cbn [utf8.range_from string_drop]. apply IH. cbn [String.length] in Hskip. lia.
Qed.

Lemma range_bytes (s : string) : token_string (utf8.range s) = s.
Proof. apply (range_from_spec s 0). lia. Qed.

Lemma range_chunks (s : string) : Forall chunk_ok (utf8.range s).
Proof. apply (range_from_spec s 0). lia. Qed.

(** ** ReplaceAllString *)

Lemma replace_loop_letters in_match (rs : list (Z * string)) :
  Forall chunk_ok rs →
  regexp.replace_loop nonAlpha "" in_match rs =
    string_filter is_letter_byte (token_string rs).
Proof.
  intros Hall. revert in_match.
  induction Hall as [|[r bytes] rs Hc Hall IH]; intros in_match; [done|].
  cbn [regexp.replace_loop token_string regexp.class nonAlpha].
  rewrite string_filter_app.
  destruct Hc as [[Ha (c & Hb & Hv)]|[Ha Hf]]; cbn [fst snd] in *.
  - rewrite Ha. cbn [negb]. subst bytes. cbn [string_filter].
    unfold is_letter_byte at 1. rewrite Hv, Ha.
    rewrite !string_app_cons, !string_app_nil_l. f_equal. apply IH.
  - rewrite Ha, Hf, string_app_nil_l. cbn [negb].
    destruct in_match; rewrite ?string_app_nil_l; apply IH.
Qed.

(** Replacing the matches of [nonAlpha] by nothing keeps the letters, byte
    for byte. *)
Lemma ReplaceAllString_letters (w : string) :
  regexp.ReplaceAllString nonAlpha w "" = string_filter is_letter_byte w.
Proof.
  unfold regexp.ReplaceAllString.
  rewrite replace_loop_letters by apply range_chunks. by rewrite range_bytes.
Qed.

Lemma string_filter_all p (s : string) :
  Forall (λ c, p c = true) (list_ascii_of_string (string_filter p s)).
Proof.
  induction s as [|c s IH]; simpl; [constructor|].
  destruct (p c) eqn:E; simpl; [by constructor|done].
Qed.

(** What reaches [ToLower] is made of ASCII letters. *)
Lemma ReplaceAllString_ascii (w : string) :
  Forall (λ c, is_letter_byte c = true)
         (list_ascii_of_string (regexp.ReplaceAllString nonAlpha w "")).
Proof. rewrite ReplaceAllString_letters. apply string_filter_all. Qed.

(** ** Fields *)

Lemma FieldsFunc_loop_split (rs : list (Z * string)) :
  ∀ (start : option string) (tok0 : list (Z * string)),
    (start = None ∧ tok0 = []) ∨
    (start = Some (token_string tok0) ∧ tok0 ≠ [] ∧
     Forall (λ rb, unicode.IsSpace rb.1 = false) tok0) →
    ∃ toks, split_ws (tok0 ++ rs) toks ∧
            strings.FieldsFunc_loop unicode.IsSpace start rs =
              map token_string toks.
Proof.
  induction rs as [|[r bytes] rs IH]; intros start tok0 Hst.
  - destruct Hst as [[-> ->]|(-> & Hne & Hall)].
    + exists []. split; [constructor|done].
    + exists [tok0]. split; [|done]. by apply split_ws_token; [..|constructor].
  - cbn [strings.FieldsFunc_loop].
    destruct (unicode.IsSpace r) eqn:Hsp.
    + destruct (IH None []) as (toks & Hsplit & Heq); [by left|].
      simpl in Hsplit.
      destruct Hst as [[-> ->]|(-> & Hne & Hall)].
      * exists toks. split; [by apply split_ws_space|done].
      * exists (tok0 :: toks). split; [|by rewrite Heq].
        apply split_ws_token; [done|done|done|by apply split_ws_space].
    + destruct Hst as [[-> ->]|(-> & Hne & Hall)].
      * destruct (IH (Some bytes) [(r, bytes)]) as (toks & Hsplit & Heq).
        { right. split; [cbn [token_string]; by rewrite string_app_nil_r|].
          split; [done|]. by repeat constructor. }
        exists toks. by split.
      * destruct (IH (Some (token_string tok0 +:+ bytes)) (tok0 ++ [(r, bytes)]))
          as (toks & Hsplit & Heq).
        { right. split;
            [rewrite token_string_app; cbn [token_string]; by rewrite string_app_nil_r|].
          split; [by destruct tok0|].
          apply Forall_app. split; [done|]. by repeat constructor. }
        exists toks. rewrite <-app_assoc in Hsplit. by split.
Qed.

Lemma Fields_split (line : string) :
  ∃ toks, split_ws (utf8.range line) toks ∧
          strings.Fields line = map token_string toks.
Proof. apply (FieldsFunc_loop_split (utf8.range line) None []). by left. Qed.

Lemma split_ws_sub rs toks :
  split_ws rs toks → ∀ tok rb, tok ∈ toks → rb ∈ tok → rb ∈ rs.
Proof.
  induction 1 as [|r bytes rs toks Hsp Hsplit IH|tok0 rs toks Hne Hall Hst Hsplit IH];
    intros tok rb Htok Hrb.
  - by apply elem_of_nil in Htok.
  - apply elem_of_cons. right. by eapply IH.
  - apply elem_of_app. apply elem_of_cons in Htok as [->|Htok]; [by left|].
    right. by eapply IH.
Qed.

(** ** mapFn *)

Lemma mapFn_body_normalize result w :
  mapFn_body result w =
    if string_nonempty (normalize w) then result ++ [mkWordCount (normalize w) 1]
    else result.
Proof. unfold mapFn_body, normalize. by rewrite ReplaceAllString_letters. Qed.

Lemma mapFn_fold (ws : list string) (result : list wordCount) :
  fold_left mapFn_body ws result =
    result ++ map (λ w, mkWordCount w 1)
                  (List.filter string_nonempty (map normalize ws)).
Proof.
  revert result. induction ws as [|w ws IH]; intros result; simpl.
  { by rewrite app_nil_r. }
  rewrite IH, mapFn_body_normalize.
  destruct (string_nonempty (normalize w)); simpl; [|done].
  by rewrite <-app_assoc.
Qed.

Lemma mapFn_normalize (line : string) :
  mapFn line =
    map (λ w, mkWordCount w 1)
        (List.filter string_nonempty (map normalize (strings.Fields line))).
Proof. unfold mapFn. by rewrite mapFn_fold. Qed.

Lemma token_filter_empty p (rs : list (Z * string)) :
  string_filter p (token_string rs) = "" ↔
  Forall (λ rb, string_filter p rb.2 = "") rs.
Proof.
  induction rs as [|[r bytes] rs IH]; cbn [token_string].
  { split; [constructor|done]. }
  rewrite string_filter_app, Forall_cons, <-IH. cbn [snd]. split.
  - apply string_app_empty.
  - intros [-> ->]. done.
Qed.

Lemma ToLower_nonempty (s : string) :
  string_nonempty (strings.ToLower s) = string_nonempty s.
Proof. by destruct s. Qed.

Lemma mapFn_no_letters (line : string) :
  string_filter is_letter_byte line = "" → mapFn line = [].
Proof.
  intros Hline. rewrite mapFn_normalize.
  destruct (Fields_split line) as (toks & Hsplit & ->).
  rewrite <-(range_bytes line) in Hline.
  apply token_filter_empty in Hline. rewrite Forall_forall in Hline.
  assert (Forall (λ tok, normalize (token_string tok) = "") toks) as Hall.
  { apply Forall_forall. intros tok Htok. unfold normalize.
    replace (string_filter is_letter_byte (token_string tok)) with ""; [done|].
    symmetry. apply token_filter_empty, Forall_forall. intros rb Hrb.
    apply Hline. by eapply split_ws_sub. }
  clear Hsplit Hline. induction Hall as [|tok toks Htok Hall IH]; [done|].
  simpl. by rewrite Htok.
Qed.

Lemma string_filter_neg p (s : string) :
  string_filter p (string_filter (λ c, negb (p c)) s) = "".
Proof.
  induction s as [|c s IH]; simpl; [done|].
  destruct (p c) eqn:E; simpl; [done|]. by rewrite E.
Qed.

Local Open Scope Z_scope.

Lemma lower_byte_letter c :
  is_letter_byte c = true → 0x61 <= utf8.byte_val (strings.lower_byte c) <= 0x7A.
Proof.
  unfold is_letter_byte, is_alpha, strings.lower_byte.
  pose proof (byte_val_range c) as Hc. intros Hl.
  destruct ((0x41 <=? utf8.byte_val c) && (utf8.byte_val c <=? 0x5A)) eqn:Hup.
  - apply andb_true_iff in Hup as [Hlo%Z.leb_le Hhi%Z.leb_le].
    unfold utf8.byte_val in *. rewrite N_ascii_embedding by lia. lia.
  - rewrite orb_false_r in Hl.
    apply andb_true_iff in Hl as [Hlo%Z.leb_le Hhi%Z.leb_le]. lia.
Qed.

(** A normalized token is made of lower-case ASCII letters. *)
Lemma normalize_lower (w : string) : lower_letters (normalize w).
Proof.
  unfold lower_letters, normalize. pose proof (string_filter_all is_letter_byte w) as Hall.
  induction (string_filter is_letter_byte w) as [|c s IH]; simpl; [constructor|].
  simpl in Hall. apply Forall_cons in Hall as [Hc Hall].
  constructor; [by apply lower_byte_letter|by apply IH].
Qed.

Lemma string_nonempty_ne (w : string) : string_nonempty w = true → w ≠ "".
Proof. by destruct w. Qed.

(** Every record of [mapFn] counts one occurrence of a word that is not
    empty and is made of lower-case letters. *)
Lemma mapFn_records (line : string) :
  Forall (λ r, count r = 1 ∧ word r ≠ "" ∧ lower_letters (word r)) (mapFn line).
Proof.
  rewrite mapFn_normalize.
  induction (strings.Fields line) as [|w ws IH]; simpl; [constructor|].
  destruct (string_nonempty (normalize w)) eqn:E; simpl; [|done].
  constructor; [|done]. simpl.
  split; [done|]. split; [by apply string_nonempty_ne|apply normalize_lower].
Qed.

Lemma mapper_words_nonempty (lines : list string) :
  Forall (λ r, word r ≠ "") (mapper lines mapFn).
Proof.
  unfold mapper. induction lines as [|line lines IH]; simpl; [constructor|].
  apply Forall_app. split; [|done].
  eapply Forall_impl; [apply mapFn_records|]. by intros r (_ & Hne & _).
Qed.

(** ** The fields of a line, byte by byte *)

Local Open Scope Z_scope.

Lemma letters_lower_normalize (w : string) : letters_lower w = normalize w.
Proof.
  unfold normalize. induction w as [|c w IH]; [done|].
  cbn [letters_lower string_filter]. rewrite IH. clear IH.
  destruct c as [[] [] [] [] [] [] [] []]; reflexivity.
Qed.

Lemma string_nonempty_eqb (w : string) :
  negb (String.eqb w "") = string_nonempty w.
Proof. by destruct w. Qed.

(** Disjoint bits add up. *)
Lemma lor_shiftl_add a b n :
  0 <= n → 0 <= b < 2 ^ n → Z.lor (Z.shiftl a n) b = a * 2 ^ n + b.
Proof.
  intros Hn Hb. rewrite Z.shiftl_mul_pow2 by done.
  pose proof (Z.add_lor_land (a * 2 ^ n) b) as H.
  assert (Z.land (a * 2 ^ n) b = 0) as H0; [|lia].
  apply Z.bits_inj'. intros i Hi. rewrite Z.land_spec, Z.bits_0.
  destruct (Z.lt_ge_cases i n) as [Hlt|Hge].
  - by rewrite Z.mul_pow2_bits_low.
  - destruct (Z.eq_dec b 0) as [->|Hne]; [by rewrite Z.bits_0, andb_false_r|].
    rewrite (Z.bits_above_log2 b i); [apply andb_false_r|lia|].
    apply Z.log2_lt_pow2; [lia|].
    eapply Z.lt_le_trans; [apply Hb|]. apply Z.pow_le_mono_r; lia.
Qed.

Lemma rune2_val s0 s1 :
  0xC2 <= s0 <= 0xDF → 0x80 <= s1 <= 0xBF →
  Z.lor (Z.shiftl (Z.land s0 0x1F) 6) (Z.land s1 0x3F) =
    (s0 - 0xC0) * 64 + (s1 - 0x80).
Proof.
  intros H0 H1. change 0x1F with (Z.ones 5). change 0x3F with (Z.ones 6).
  rewrite !Z.land_ones by lia. rewrite lor_shiftl_add.
  - change (2 ^ 5) with 32. change (2 ^ 6) with 64.
    Z.div_mod_to_equations. lia.
  - lia.
  - change (2 ^ 6) with 64. Z.div_mod_to_equations. lia.
Qed.

Lemma rune3_val s0 s1 s2 :
  0xE0 <= s0 <= 0xEF → 0x80 <= s1 <= 0xBF → 0x80 <= s2 <= 0xBF →
  Z.lor (Z.lor (Z.shiftl (Z.land s0 0x0F) 12) (Z.shiftl (Z.land s1 0x3F) 6))
        (Z.land s2 0x3F) =
    (s0 - 0xE0) * 4096 + (s1 - 0x80) * 64 + (s2 - 0x80).
Proof.
  intros H0 H1 H2.
  replace (Z.shiftl (Z.land s0 15) 12)
    with (Z.shiftl (Z.shiftl (Z.land s0 15) 6) 6)
    by (rewrite Z.shiftl_shiftl by lia; reflexivity).
  rewrite <-Z.shiftl_lor.
  change 15 with (Z.ones 4). change 0x3F with (Z.ones 6).
  rewrite !Z.land_ones by lia.
  change (2 ^ 4) with 16. change (2 ^ 6) with 64.
  rewrite (lor_shiftl_add (s0 mod 16) (s1 mod 64) 6);
    [|lia|change (2 ^ 6) with 64; Z.div_mod_to_equations; lia].
  rewrite lor_shiftl_add;
    [|lia|change (2 ^ 6) with 64; Z.div_mod_to_equations; lia].
  change (2 ^ 6) with 64. Z.div_mod_to_equations. lia.
Qed.

Lemma rune4_big s0 s1 s2 s3 :
  0xF0 <= s0 <= 0xF4 → 0x80 <= s1 <= 0xBF → (s0 = 0xF0 → 0x90 <= s1) →
  0 <= s2 → 0 <= s3 →
  0x10000 <= Z.lor (Z.lor (Z.lor (Z.shiftl (Z.land s0 0x07) 18)
                                 (Z.shiftl (Z.land s1 0x3F) 12))
                          (Z.shiftl (Z.land s2 0x3F) 6)) (Z.land s3 0x3F).
Proof.
  intros H0 H1 HE H2 H3.
  assert (0 <= Z.shiftl (Z.land s0 7) 18) as HA
    by (apply Z.shiftl_nonneg, Z.land_nonneg; by right).
  assert (0 <= Z.shiftl (Z.land s1 63) 12) as HB
    by (apply Z.shiftl_nonneg, Z.land_nonneg; by right).
  assert (0 <= Z.shiftl (Z.land s2 63) 6) as HC
    by (apply Z.shiftl_nonneg, Z.land_nonneg; by right).
  etrans; [|apply lor_lower; apply Z.land_nonneg; by left].
  etrans; [|apply lor_lower; done].
  pose proof (lor_lower (Z.shiftl (Z.land s0 7) 18) _ HB) as HlA.
  pose proof (lor_lower_r _ (Z.shiftl (Z.land s1 63) 12) HA) as HlB.
  revert HlA HlB. rewrite !Z.shiftl_mul_pow2 by lia.
  change 7 with (Z.ones 3). change 63 with (Z.ones 6).
  rewrite !Z.land_ones by lia.
  change (2 ^ 3) with 8. change (2 ^ 6) with 64. change (2 ^ 12) with 4096.
  change (2 ^ 18) with 262144.
  intros HlA HlB. Z.div_mod_to_equations. lia.
Qed.

Lemma byte_code_val c : byte_code c = utf8.byte_val c.
Proof. apply N_nat_Z. Qed.

(** ** White space, rune by rune and byte by byte *)

Lemma IsSpace_big r : 0x3001 <= r → unicode.IsSpace r = false.
Proof. unfold unicode.IsSpace. intros. case_match; lia. Qed.

Lemma IsSpace_ascii b :
  b < 128 → unicode.IsSpace b = (9 <=? b) && (b <=? 13) || (b =? 32).
Proof. unfold unicode.IsSpace. intros. case_match; lia. Qed.

Lemma IsSpace_two b0 b1 :
  0xC2 <= b0 <= 0xDF → 0x80 <= b1 <= 0xBF →
  unicode.IsSpace ((b0 - 0xC0) * 64 + (b1 - 0x80)) =
    (b0 =? 0xC2) && ((b1 =? 0x85) || (b1 =? 0xA0)).
Proof. unfold unicode.IsSpace. intros. case_match; lia. Qed.

Lemma IsSpace_three b0 b1 b2 :
  0xE0 <= b0 <= 0xEF → 0x80 <= b1 <= 0xBF → (b0 = 0xE0 → 0xA0 <= b1) →
  0x80 <= b2 <= 0xBF →
  unicode.IsSpace ((b0 - 0xE0) * 4096 + (b1 - 0x80) * 64 + (b2 - 0x80)) =
    (b0 =? 0xE1) && (b1 =? 0x9A) && (b2 =? 0x80)
    || (b0 =? 0xE2) && (b1 =? 0x80)
       && ((0x80 <=? b2) && (b2 <=? 0x8A)
           || (b2 =? 0xA8) || (b2 =? 0xA9) || (b2 =? 0xAF))
    || (b0 =? 0xE2) && (b1 =? 0x81) && (b2 =? 0x9F)
    || (b0 =? 0xE3) && (b1 =? 0x80) && (b2 =? 0x80).
Proof.
  unfold unicode.IsSpace. intros H0 H1 HE H2.
  case_match; match goal with |- _ = ?R => destruct R eqn:E end; lia.
Qed.

Ltac name_bytes :=
  rewrite ?byte_code_val; cbv zeta;
  repeat match goal with
    | H : context [utf8.byte_val ?c] |- _ =>
        let b := fresh "b" in set (b := utf8.byte_val c) in *; clearbody b
    | |- context [utf8.byte_val ?c] =>
        let b := fresh "b" in set (b := utf8.byte_val c) in *; clearbody b
    end.

Lemma width_ascii c t :
  utf8.byte_val c < 128 →
  white_space_width (String c t) =
    if unicode.IsSpace (utf8.byte_val c) then 1%nat else 0%nat.
Proof.
  intros Hc. rewrite IsSpace_ascii by done.
  destruct t as [|c1 [|c2 t]]; unfold white_space_width; name_bytes;
    repeat case_match; first [reflexivity | lia].
Qed.

Lemma width_two c c1 t :
  0xC2 <= utf8.byte_val c <= 0xDF → 0x80 <= utf8.byte_val c1 <= 0xBF →
  white_space_width (String c (String c1 t)) =
    if unicode.IsSpace ((utf8.byte_val c - 0xC0) * 64 + (utf8.byte_val c1 - 0x80))
    then 2%nat else 0%nat.
Proof.
  intros Hc Hc1. rewrite IsSpace_two by done.
  destruct t as [|c2 t]; unfold white_space_width; name_bytes;
    repeat case_match; first [reflexivity | lia].
Qed.

Lemma width_three c c1 c2 t :
  0xE0 <= utf8.byte_val c <= 0xEF → 0x80 <= utf8.byte_val c1 <= 0xBF →
  (utf8.byte_val c = 0xE0 → 0xA0 <= utf8.byte_val c1) →
  0x80 <= utf8.byte_val c2 <= 0xBF →
  white_space_width (String c (String c1 (String c2 t))) =
    if unicode.IsSpace ((utf8.byte_val c - 0xE0) * 4096
                        + (utf8.byte_val c1 - 0x80) * 64
                        + (utf8.byte_val c2 - 0x80))
    then 3%nat else 0%nat.
Proof.
  intros Hc Hc1 HE Hc2. rewrite IsSpace_three by done.
  unfold white_space_width; name_bytes.
  repeat case_match; first [reflexivity | lia].
Qed.

Ltac width_zero :=
  unfold white_space_width; name_bytes;
  repeat case_match; first [reflexivity | lia].

Ltac range_hyps :=
  repeat match goal with
    | H : (_ <? _) = true |- _ => apply Z.ltb_lt in H
    | H : (_ <? _) = false |- _ => apply Z.ltb_ge in H
    | H : _ || _ = false |- _ => apply orb_false_elim in H as [? ?]
    | H : _ || _ = true |- _ => apply orb_true_iff in H; rewrite !Z.ltb_lt in H
    end.

Ltac space_leaf :=
  range_hyps;
  lazymatch goal with
  | |- (_, 0%nat) = _ → _ => exfalso; lia
  | |- (65533, 1%nat) = _ → _ =>
      intros [= <- <-];
      split; [intros [=]|intros _; split; [width_zero|exact I]]
  | |- (_, 1%nat) = _ → _ =>
      intros [= <- <-]; rewrite width_ascii by lia;
      split; intros ->; [reflexivity|split; [reflexivity|exact I]]
  | |- (_, 2%nat) = _ → _ =>
      intros [= <- <-]; rewrite rune2_val, width_two by lia;
      split; intros ->;
      [reflexivity|split; [reflexivity|cbn [cont_prefix Nat.sub]; split; [lia|exact I]]]
  | |- (_, 3%nat) = _ → _ =>
      intros [= <- <-]; rewrite rune3_val, width_three by lia;
      split; intros ->;
      [reflexivity
      |split; [reflexivity|cbn [cont_prefix Nat.sub]; repeat split; lia]]
  | |- (Z.lor (Z.lor (Z.lor (Z.shiftl (Z.land ?s0 7) 18)
                            (Z.shiftl (Z.land ?s1 63) 12))
                     (Z.shiftl (Z.land ?s2 63) 6)) (Z.land ?s3 63), 4%nat) = _
       → _ =>
      let H := fresh "Hbig" in
      assert (H := rune4_big s0 s1 s2 s3 ltac:(lia) ltac:(lia) ltac:(lia)
                             ltac:(lia) ltac:(lia));
      intros [= <- <-]; rewrite IsSpace_big by lia;
      split; [intros [=]|intros _; split;
        [width_zero|cbn [cont_prefix Nat.sub]; repeat split; lia]]
  end.

Lemma first_classes b : 0 <= b < 256 →
  (b < 0x80 ∧ utf8.first b = 0xF0) ∨
  ((0x80 <= b < 0xC2 ∨ 0xF5 <= b) ∧ utf8.first b = 0xF1) ∨
  (0xC2 <= b <= 0xDF ∧ utf8.first b = 0x02) ∨
  (b = 0xE0 ∧ utf8.first b = 0x13) ∨
  (0xE1 <= b <= 0xEF ∧ utf8.first b = 0x03) ∨
  (b = 0xED ∧ utf8.first b = 0x23) ∨
  (b = 0xF0 ∧ utf8.first b = 0x34) ∨
  (0xF1 <= b <= 0xF3 ∧ utf8.first b = 0x04) ∨
  (b = 0xF4 ∧ utf8.first b = 0x44).
Proof. intros Hb. unfold utf8.first. repeat case_match; lia. Qed.

Lemma decode_space c t r size :
  utf8.DecodeRuneInString (String c t) = (r, size) →
  (unicode.IsSpace r = true → white_space_width (String c t) = size) ∧
  (unicode.IsSpace r = false →
   white_space_width (String c t) = 0%nat ∧ cont_prefix (size - 1) t).
Proof.
  unfold utf8.DecodeRuneInString.
  pose proof (byte_val_range c) as Hc.
  assert (Hb : ∀ c', 0 <= utf8.byte_val c' < 256) by apply byte_val_range.
  change (utf8.byte_at (String c t) 0) with (utf8.byte_val c).
  unfold utf8.locb, utf8.hicb, utf8.RuneError.
  destruct (first_classes _ Hc) as
    [[H0 Hf]|[[H0 Hf]|[[H0 Hf]|[[H0 Hf]|[[H0 Hf]|[[H0 Hf]|[[H0 Hf]|[[H0 Hf]|[H0 Hf]]]]]]]]];
    rewrite Hf; cbv zeta;
    destruct t as [|c1 [|c2 [|c3 t3]]];
    cbn [utf8.byte_at String.get String.length];
    repeat match goal with
      | |- context [Z.of_nat ?n] =>
          lazymatch n with
          | S (S (S (S (String.length _)))) => fail
          | _ => let v := eval vm_compute in (Z.of_nat n) in
                 change (Z.of_nat n) with v
          end
      end.
  all: try pose proof (Hb c1) as Hc1; try pose proof (Hb c2) as Hc2;
       try pose proof (Hb c3) as Hc3.
  all: match goal with |- context [?k >=? 240] => fold_class k end.
  all: repeat match goal with
         | |- context [if ?b then _ else _] => destruct b eqn:?
         end.
  all: clear Hb Hf.
  all: space_leaf.
Qed.

Lemma width_cont c t :
  0x80 <= utf8.byte_val c <= 0xBF → white_space_width (String c t) = 0%nat.
Proof. intros Hc. destruct t as [|c1 [|c2 t]]; width_zero. Qed.

Local Open Scope nat_scope.

Lemma close_field_cons cur (l : list string) :
  match cur with Some w => w :: l | None => l end = close_field cur ++ l.
Proof. by destruct cur. Qed.

(** [strings.Fields] on the runes of [s] and [fields_from] on its bytes go
    the same way: at the start of a rune, inside a rune that is white
    space, and inside a rune that is not. *)
Lemma fields_from_agree (s : string) :
  (∀ cur, strings.FieldsFunc_loop unicode.IsSpace cur (utf8.range_from 0 s) =
          fields_from 0 cur s) ∧
  (∀ k w, cont_prefix k s →
          strings.FieldsFunc_loop unicode.IsSpace
            (Some (w +:+ String.substring 0 k s)) (utf8.range_from k s) =
          fields_from 0 (Some w) s) ∧
  (∀ k, strings.FieldsFunc_loop unicode.IsSpace None (utf8.range_from k s) =
        fields_from k None s).
Proof.
  induction s as [|c t (IHA & IHB & IHC)].
  { split; [|split].
    - by intros [w|].
    - intros [|k] w Hk; [|done]. cbn. by rewrite string_app_nil_r.
    - by intros [|k]. }
  assert (∀ cur, strings.FieldsFunc_loop unicode.IsSpace cur
                   (utf8.range_from 0 (String c t)) =
                 fields_from 0 cur (String c t)) as HA.
  { intros cur. cbn [utf8.range_from fields_from].
    destruct (utf8.DecodeRuneInString (String c t)) as [r size] eqn:Hd.
    destruct (decode_ok c t r size Hd) as [Hsize _].
    destruct (decode_space c t r size Hd) as [Hsp Hns].
    destruct size as [|k]; [lia|].
    replace (S k - 1) with k in * by lia.
    cbn [strings.FieldsFunc_loop String.substring].
    destruct (unicode.IsSpace r).
    - rewrite (Hsp eq_refl), IHC. apply close_field_cons.
    - destruct (Hns eq_refl) as [-> Hcont].
      destruct cur as [w|]; cbn [extend_field].
      + rewrite <-(IHB k _ Hcont).
        by rewrite string_app_assoc, string_app_cons, string_app_nil_l.
      + rewrite <-(IHB k _ Hcont).
        by rewrite string_app_cons, string_app_nil_l. }
  split; [done|split].
  - intros [|k] w Hk.
    + rewrite substring_0_0, string_app_nil_r. apply HA.
    + destruct Hk as [Hc Hk]. cbn [utf8.range_from String.substring fields_from].
      rewrite (width_cont c t Hc). cbn [extend_field].
      rewrite <-(IHB k _ Hk).
      by rewrite string_app_assoc, string_app_cons, string_app_nil_l.
  - intros [|k]; [apply HA|]. cbn [utf8.range_from fields_from]. apply IHC.
Qed.

(** [strings.Fields] cuts a line at the white space of its bytes. *)
Lemma Fields_bytes (line : string) :
  strings.Fields line = fields_of_bytes line.
Proof. apply (fields_from_agree line). Qed.

Lemma mapFn_bytes (line : string) : mapFn line = mapFn_on_bytes line.
Proof.
  rewrite mapFn_normalize. unfold mapFn_on_bytes. rewrite <-Fields_bytes.
  f_equal. induction (strings.Fields line) as [|w ws IH]; [done|].
  cbn [map List.filter]. rewrite letters_lower_normalize, string_nonempty_eqb.
  by rewrite IH.
Qed.

(** * The stages, claim by claim *)

Local Open Scope nat_scope.

(** ** The reducer loses the last group *)

Lemma reducer_loop_below input wc :
  StronglySorted word_le (wc :: input) →
  Forall (λ o, ∃ x, x ∈ input ∧ word_lt o x) (reducer_loop wc input).
Proof.
  revert wc. induction input as [|inp rest IH]; intros wc Hs; simpl.
  { constructor. }
  apply StronglySorted_cons in Hs as [Hall Hs].
  apply Forall_cons in Hall as [Hle Hall].
  apply StronglySorted_cons in Hs as [Hrest Hs].
  assert (∀ wc', word wc' = word inp →
     Forall (λ o, ∃ x, x ∈ inp :: rest ∧ word_lt o x) (reducer_loop wc' rest))
    as Hnext.
  { intros wc' Hw. eapply Forall_impl.
    - apply IH. apply StronglySorted_cons. split; [|done].
      eapply Forall_impl; [exact Hrest|]. intros r Hr.
      unfold word_le in *. by rewrite Hw.
    - intros o (x & Hx & Hlt). exists x. split; [|done].
      apply elem_of_cons. by right. }
  destruct (decide (word wc = word inp)) as [Heq|Hne].
  - rewrite reducer_step_same by done. simpl. by apply Hnext.
  - rewrite reducer_step_new by done.
    destruct (String.eqb (word wc) ""); simpl; [by apply Hnext|].
    apply Forall_cons. split; [|by apply Hnext].
    exists inp. split; [apply elem_of_cons; by left|]. by apply str_lt_iff.
Qed.

(** The word of the last record of a sorted input is in no record sent. *)
Lemma reducer_drops_last_group input last :
  StronglySorted word_le (input ++ [last]) →
  word last ∉ map word (reducer (input ++ [last])).
Proof.
  intros Hs (o & Ho & Hin)%list_elem_of_fmap.
  assert (StronglySorted word_le (wc_zero :: input ++ [last])) as Hs0.
  { apply StronglySorted_cons. split; [|done].
    apply Forall_forall. intros x _. apply str_le_empty. }
  pose proof (reducer_loop_below _ _ Hs0) as Hall.
  rewrite Forall_forall in Hall. destruct (Hall o Hin) as (x & Hx & Hlt).
  assert (word_le x last) as Hle.
  { apply elem_of_app in Hx as [Hx|Hx].
    - eapply StronglySorted_app_1_elem_of; [exact Hs|done|]. apply list_elem_of_singleton. done.
    - apply list_elem_of_singleton in Hx as ->. apply word_le_refl. }
  pose proof (str_lt_le_trans _ _ _ Hlt Hle) as Hol.
  apply str_lt_iff in Hol as [_ Hne]. by apply Hne.
Qed.

(** C1.  On the line ["a"] the reference count is [a : 1], and the pipeline
    sends no record at all: grouped by word its output is the empty
    mapping, and the sum of its counts is 0 for one token.  On ["a b"] the
    only record sent is [(a, 2)]: the count of [a] is one too many and [b]
    is missing. *)
Theorem pipeline_differs_from_reference :
  pipeline ["a"] = [] ∧
  reference_count ["a"] !! "a" = Some 1%Z ∧
  group_sum (pipeline ["a"]) !! "a" = None ∧
  total_count (pipeline ["a"]) = 0%Z ∧
  length (reference_tokens ["a"]) = 1 ∧
  pipeline ["a b"] = [mkWordCount "a" 2] ∧
  reference_count ["a b"] !! "a" = Some 1%Z ∧
  reference_count ["a b"] !! "b" = Some 1%Z ∧
  group_sum (pipeline ["a b"]) !! "a" = Some 2%Z ∧
  group_sum (pipeline ["a b"]) !! "b" = None.
Proof. repeat split; vm_compute; reflexivity. Qed.

(** C2.  On the two lines of the example the mapper produces the tokens
    the, cat, sat, the, dog, sat, on, the, cat; the pipeline then sends
    (cat, 3), (dog, 2), (on, 2), (sat, 3), and no record for "the". *)
Theorem example_two_lines :
  map word (mapper ["The cat sat."; "The dog sat on the cat."] mapFn) =
    ["the"; "cat"; "sat"; "the"; "dog"; "sat"; "on"; "the"; "cat"] ∧
  pipeline ["The cat sat."; "The dog sat on the cat."] =
    [mkWordCount "cat" 3; mkWordCount "dog" 2; mkWordCount "on" 2;
     mkWordCount "sat" 3].
Proof. split; vm_compute; reflexivity. Qed.

(** C3.  The first record [(a, 1)] starts the accumulator [(a, 2)], not
    [(a, 1)]: the count of the record is added to the accumulator that has
    just been set to the record.  A record of another word then sends
    [(a, 2)] and starts [(b, 2)]; a record of the same word adds its count
    and sends nothing. *)
Theorem reducer_step_on_records :
  reducer_step wc_zero (mkWordCount "a" 1) = ([], mkWordCount "a" 2) ∧
  reducer_step (mkWordCount "a" 2) (mkWordCount "b" 1) =
    ([mkWordCount "a" 2], mkWordCount "b" 2) ∧
  reducer_step (mkWordCount "a" 2) (mkWordCount "a" 1) =
    ([], mkWordCount "a" 3).
Proof. repeat split; vm_compute; reflexivity. Qed.

(** C4.  When the input ends the accumulator is not sent: on the one record
    [(a, 1)] the reducer sends nothing, and on [(a, 1); (b, 1)] it sends
    [(a, 2)] only. *)
Theorem reducer_at_end_of_input :
  reducer [mkWordCount "a" 1] = [] ∧
  reducer [mkWordCount "a" 1; mkWordCount "b" 1] = [mkWordCount "a" 2].
Proof. split; vm_compute; reflexivity. Qed.

(** C5.  For every input the words of the records that the pipeline sends
    are strictly increasing in the byte order of strings, and no word is in
    two records. *)
Theorem pipeline_strictly_ascending (lines : list string) :
  StronglySorted word_lt (pipeline lines) ∧ NoDup (map word (pipeline lines)).
Proof.
  assert (StronglySorted word_lt (pipeline lines)) as Hs.
  { unfold pipeline, reducer. apply reducer_loop_sorted.
    apply StronglySorted_cons. split; [|apply sorter_sorted].
    apply Forall_forall. intros x _. apply str_le_empty. }
  split; [done|]. by apply word_lt_NoDup.
Qed.

(** C6.  For every line, [mapFn] returns what its contract gives on the
    bytes of the line ([mapFn_on_bytes]): the line is cut at every run of
    white space, each field is reduced to its ASCII letters, put in lower
    case, the fields left empty are dropped, and every other field gives
    one record with the count 1, in the order of the fields.  On the runes
    of the line: they hold the bytes of the line, all of them and in their
    order, and the records are those of the maximal runs of runes that are
    not white space whose normal form is not empty.  Every word returned is
    a non-empty string of lower-case letters.  A line that holds no ASCII
    letter gives no record, as ["123 !!! --"] does; ["The cat sat."] gives
    [the], [cat] and [sat]; a tab, a line feed, a no-break space (C2 A0)
    and an ideographic space (E3 80 80) cut the line as a space does; the
    bytes of [é] (C3 A9), an apostrophe, a byte C2 without its continuation
    and the over-long E0 80 A0 cut nothing and are dropped. *)
Theorem mapFn_contract (line : string) :
  mapFn line = mapFn_on_bytes line ∧
  token_string (utf8.range line) = line ∧
  (∃ toks,
     split_ws (utf8.range line) toks ∧
     mapFn line =
       map (λ w, mkWordCount w 1)
           (List.filter string_nonempty
                        (map (λ tok, normalize (token_string tok)) toks))) ∧
  Forall (λ r, count r = 1%Z ∧ word r ≠ "" ∧ lower_letters (word r))
         (mapFn line) ∧
  mapFn (string_filter (λ c, negb (is_letter_byte c)) line) = [] ∧
  mapFn "123 !!! --" = [] ∧
  mapFn "The cat sat." =
    [mkWordCount "the" 1; mkWordCount "cat" 1; mkWordCount "sat" 1] ∧
  mapFn ("  Hello," +:+ String "009" ("WORLD!" +:+ String "010" "")) =
    [mkWordCount "hello" 1; mkWordCount "world" 1] ∧
  mapFn ("a" +:+ String "194" (String "160" "b")) =
    [mkWordCount "a" 1; mkWordCount "b" 1] ∧
  mapFn ("a" +:+ String "227" (String "128" (String "128" "b"))) =
    [mkWordCount "a" 1; mkWordCount "b" 1] ∧
  mapFn ("caf" +:+ String "195" (String "169" "s don't")) =
    [mkWordCount "cafs" 1; mkWordCount "dont" 1] ∧
  mapFn ("a" +:+ String "194" "b c") =
    [mkWordCount "ab" 1; mkWordCount "c" 1] ∧
  mapFn ("a" +:+ String "224" (String "128" (String "160" "b"))) =
    [mkWordCount "ab" 1].
Proof.
  split; [apply mapFn_bytes|].
  split; [apply range_bytes|].
  split.
  { destruct (Fields_split line) as (toks & Hsplit & Heq).
    exists toks. split; [done|].
    by rewrite mapFn_normalize, Heq, map_map. }
  split; [apply mapFn_records|].
  split; [apply mapFn_no_letters, string_filter_neg|].
  repeat split; vm_compute; reflexivity.
Qed.

(** C7.  For every finite input the records that the sorter sends are a
    permutation of the records it receives, in non-decreasing order of
    their words; at every step of the sorter either nothing has been sent
    yet or nothing is left to receive; and the sorter returns after having
    sent them all. *)
Theorem sorter_sorts_behind_barrier (input : list wordCount) :
  sorter input ≡ₚ input ∧
  StronglySorted word_le (sorter input) ∧
  (∀ n, sent (sorter_run n (sorter_init input)) = [] ∨
        pending (sorter_run n (sorter_init input)) = []) ∧
  sorter_run (2 * length input + 2) (sorter_init input) =
    mkSorterState Exited [] [] (sorter input).
Proof.
  split; [apply sorter_perm|]. split; [apply sorter_sorted|].
  split; [|apply sorter_run_exits].
  intros n. destruct (sorter_run_barrier n (sorter_init input)) as [[_ H]|[_ H]];
    [by left|by left|by right].
Qed.

(** C8.  After any sequence of pushes and pops from the empty heap that
    does not pop the empty heap, the word of the root is less than or equal
    to the word of every record in the heap. *)
Theorem heap_root_least (ops : list heap_op) (h : list wordCount)
        (root r : wordCount) :
  heap_run ops [] = Some h → h !! 0 = Some root → r ∈ h →
  str_le (word root) (word r).
Proof.
  intros Hrun Hroot Hr.
  pose proof (heap_run_ordered ops [] h heap_ordered_nil Hrun) as Hh.
  rewrite <-(list_lookup_total_correct _ _ _ Hroot).
  by apply heap_root_min_elem.
Qed.

Lemma heap_root_least_witness : str_le "a" "c".
Proof.
  apply (heap_root_least
           [OpPush (mkWordCount "c" 1); OpPush (mkWordCount "b" 1);
            OpPush (mkWordCount "a" 1); OpPop; OpPush (mkWordCount "a" 1)]
           [mkWordCount "a" 1; mkWordCount "c" 1; mkWordCount "b" 1]
           (mkWordCount "a" 1) (mkWordCount "c" 1)).
  - vm_compute. reflexivity.
  - reflexivity.
  - apply list_elem_of_In. simpl. auto.
Defined.

(** C9.  On no line at all the mapper sends no record, the heap of the
    sorter stays empty, the reducer sends nothing and the pipeline has no
    output. *)
Theorem pipeline_empty_input :
  mapper [] mapFn = [] ∧
  sorter_drain (mapper [] mapFn) = [] ∧
  sorter (mapper [] mapFn) = [] ∧
  reducer (sorter (mapper [] mapFn)) = [] ∧
  pipeline [] = [].
Proof. repeat split. Qed.

(** C10.  The empty word stands for "no accumulator".  The mapper sends
    no record with the empty word; when no record received has the empty
    word, no record sent has it; and a record with the empty word in front
    of the input changes nothing of what is sent: it is added to the zero
    accumulator, which is dropped when the next word arrives. *)
Theorem reducer_empty_word_sentinel
        (lines : list string) (input : list wordCount) (c : Z) :
  Forall (λ r, word r ≠ "") input →
  Forall (λ r, word r ≠ "") (mapper lines mapFn) ∧
  Forall (λ r, word r ≠ "") (reducer input) ∧
  reducer_step wc_zero (mkWordCount "" c) = ([], mkWordCount "" (int_add 0 c)) ∧
  reducer (mkWordCount "" c :: input) = reducer input.
Proof.
  intros _. split; [apply mapper_words_nonempty|].
  split; [apply reducer_loop_nonempty|].
  split; [done|apply reducer_empty_word_ignored].
Qed.

Lemma reducer_empty_word_sentinel_witness :
  Forall (λ r, word r ≠ "") (mapper ["a a"; "b"] mapFn) ∧
  Forall (λ r, word r ≠ "")
         (reducer [mkWordCount "a" 1; mkWordCount "a" 1; mkWordCount "b" 1]) ∧
  reducer_step wc_zero (mkWordCount "" 5) = ([], mkWordCount "" (int_add 0 5)) ∧
  reducer [mkWordCount "" 5; mkWordCount "a" 1; mkWordCount "a" 1;
           mkWordCount "b" 1] =
    reducer [mkWordCount "a" 1; mkWordCount "a" 1; mkWordCount "b" 1].
Proof.
  apply (reducer_empty_word_sentinel ["a a"; "b"]
           [mkWordCount "a" 1; mkWordCount "a" 1; mkWordCount "b" 1] 5).
  repeat constructor; discriminate.
Defined.

(** * More of the code *)

(** ** wordCountHeap and container/heap *)

Lemma Swap_involutive (h : t) i j :
  i < length h → j < length h → Swap (Swap h i j) i j = h.
Proof.
  intros Hi Hj. apply list_eq. intros k.
  destruct (decide (k < length h)) as [Hk|Hk].
  - rewrite !list_lookup_lookup_total_lt by (rewrite ?Swap_length; lia).
    f_equal. rewrite !Swap_lookup_total by (rewrite ?Swap_length; lia).
    repeat case_decide; congruence.
  - rewrite !lookup_ge_None_2 by (rewrite ?Swap_length; lia). done.
Qed.

Lemma Pop_nonempty (h : t) : 0 < length h → is_Some (heap.Pop h).
Proof.
  intros Hlen. unfold heap.Pop, Len, down.
  rewrite (proj2 (Nat.eqb_neq _ _)) by lia.
  unfold wordCountHeap.Pop. rewrite down_loop_length, Swap_length.
  destruct (lookup_lt_is_Some_2 (down_loop (length h - 1) (Swap h 0 (length h - 1)) 0 (length h - 1)) (length h - 1)) as [v Hv].
  { rewrite down_loop_length, Swap_length. lia. }
  rewrite Hv. eauto.
Qed.

(** X1.  [heap.Push] on a heap that is in heap order gives a heap in heap
    order that holds the records of the heap and the record pushed, no more
    and no less. *)
Theorem heap_Push_keeps_order (h : list wordCount) (x : wordCount) :
  heap_ordered h →
  heap_ordered (heap.Push h x) ∧ heap.Push h x ≡ₚ x :: h.
Proof. intros Hh. split; [by apply Push_ordered|apply Push_perm]. Qed.

Lemma heap_Push_keeps_order_witness :
  heap_ordered (heap.Push [mkWordCount "b" 1; mkWordCount "c" 1] (mkWordCount "a" 1)) ∧
  heap.Push [mkWordCount "b" 1; mkWordCount "c" 1] (mkWordCount "a" 1) ≡ₚ
    mkWordCount "a" 1 :: [mkWordCount "b" 1; mkWordCount "c" 1].
Proof.
  apply (heap_Push_keeps_order [mkWordCount "b" 1; mkWordCount "c" 1]
                               (mkWordCount "a" 1)).
  intros k Hk _. simpl in Hk.
  destruct k as [|[|k]]; [lia|vm_compute; reflexivity|lia].
Defined.

(** X2.  [heap.Pop] on a heap in heap order that is not empty returns a
    record whose word is least, and leaves a heap in heap order that holds
    the other records. *)
Theorem heap_Pop_returns_least (h : list wordCount) :
  heap_ordered h → h ≠ [] →
  ∃ v h', heap.Pop h = Some (v, h') ∧ h ≡ₚ v :: h' ∧
          heap_ordered h' ∧ Forall (word_le v) h'.
Proof.
  intros Hh Hne.
  destruct (Pop_spec h Hh) as (h' & HP & Hh' & Hp & _).
  { destruct h; [done|simpl; lia]. }
  exists (h !!! 0), h'. repeat split; try done.
  apply Forall_forall. intros x Hx. apply heap_root_min_elem; [done|].
  rewrite Hp. apply elem_of_cons. by right.
Qed.

Lemma heap_Pop_returns_least_witness :
  ∃ v h', heap.Pop [mkWordCount "a" 1; mkWordCount "c" 1; mkWordCount "b" 1]
            = Some (v, h') ∧
          [mkWordCount "a" 1; mkWordCount "c" 1; mkWordCount "b" 1] ≡ₚ v :: h' ∧
          heap_ordered h' ∧ Forall (word_le v) h'.
Proof.
  apply (heap_Pop_returns_least
           [mkWordCount "a" 1; mkWordCount "c" 1; mkWordCount "b" 1]).
  - intros k Hk _. simpl in Hk.
    destruct k as [|[|[|k]]]; [lia|vm_compute; reflexivity..|lia].
  - discriminate.
Defined.

(** X3.  [heap.Pop] fails exactly on the empty heap: on any heap that holds
    a record, in heap order or not, it returns a record and a heap with one
    record less. *)
Theorem heap_Pop_fails_iff_empty (h : list wordCount) :
  (heap.Pop h = None ↔ h = []) ∧
  (∀ v h', heap.Pop h = Some (v, h') → S (length h') = length h).
Proof.
  split.
  - split.
    + intros HP. destruct h as [|x h]; [done|].
      destruct (Pop_nonempty (x :: h)) as [p Hp]; [simpl; lia|]. congruence.
    + by intros ->.
  - intros v h'. unfold heap.Pop, Len, down.
    destruct (length h =? 0) eqn:E; [done|]. apply Nat.eqb_neq in E.
    unfold wordCountHeap.Pop. rewrite down_loop_length, Swap_length.
    destruct (_ !! _); [|done]. intros [= _ <-].
    rewrite length_take_le by (rewrite down_loop_length, Swap_length; lia). lia.
Qed.

(** X4.  On indices of the slice, [Less] is a strict weak order, as
    [heap.Interface] asks: it is irreflexive and transitive, and so is its
    complement. *)
Theorem Less_strict_weak_order (w : list wordCount) (i j k : nat) :
  i < length w → j < length w → k < length w →
  Less w i i = false ∧
  (Less w i j = true → Less w j i = false) ∧
  (Less w i j = true → Less w j k = true → Less w i k = true) ∧
  (Less w i j = false → Less w j k = false → Less w i k = false).
Proof.
  intros Hi Hj Hk. rewrite !Less_total_lookup by done.
  set (a := word (w !!! i)). set (b := word (w !!! j)). set (c := word (w !!! k)).
  split; [apply str_le_refl|]. split; [|split].
  - apply str_lt_le.
  - intros Hab Hbc. eapply str_lt_le_trans; [exact Hab|]. by apply str_lt_le.
  - intros Hba Hcb. exact (str_le_trans c b a Hcb Hba).
Qed.

Lemma Less_strict_weak_order_witness :
  let w := [mkWordCount "a" 1; mkWordCount "c" 1; mkWordCount "b" 1] in
  Less w 0 0 = false ∧
  (Less w 0 2 = true → Less w 2 0 = false) ∧
  (Less w 0 2 = true → Less w 2 1 = true → Less w 0 1 = true) ∧
  (Less w 0 2 = false → Less w 2 1 = false → Less w 0 1 = false).
Proof.
  apply (Less_strict_weak_order
           [mkWordCount "a" 1; mkWordCount "c" 1; mkWordCount "b" 1] 0 2 1);
    simpl; lia.
Defined.

(** X5.  The slice methods are a stack: [Pop] after [Push] returns the
    record pushed and the slice as it was. *)
Theorem slice_Pop_Push (w : list wordCount) (x : wordCount) :
  wordCountHeap.Pop (wordCountHeap.Push w x) = Some (x, w).
Proof.
  unfold wordCountHeap.Pop, wordCountHeap.Push.
  rewrite length_snoc. replace (S (length w) - 1) with (length w) by lia.
  rewrite list_lookup_middle by done. by rewrite take_app_length.
Qed.

(** X6.  [Swap] on two indices of the slice exchanges the two slots and
    leaves the others: the slice keeps its length and its records, and
    swapping twice gives the slice back. *)
Theorem Swap_exchanges (w : list wordCount) (i j : nat) :
  i < length w → j < length w →
  Swap w i j !! i = w !! j ∧ Swap w i j !! j = w !! i ∧
  (∀ k, k ≠ i → k ≠ j → Swap w i j !! k = w !! k) ∧
  length (Swap w i j) = length w ∧ Swap w i j ≡ₚ w ∧
  Swap (Swap w i j) i j = w.
Proof.
  intros Hi Hj.
  assert (∀ k, Swap w i j !! k =
     if decide (k = i) then w !! j else if decide (k = j) then w !! i else w !! k)
    as Hlk.
  { intros k. destruct (decide (k < length w)) as [Hk|Hk].
    - rewrite (list_lookup_lookup_total_lt (Swap w i j) k)
        by (rewrite Swap_length; lia).
      rewrite Swap_lookup_total by done.
      repeat case_decide; subst; by rewrite list_lookup_lookup_total_lt.
    - rewrite !lookup_ge_None_2 by (rewrite ?Swap_length; lia).
      repeat case_decide; subst; try lia; symmetry; apply lookup_ge_None_2; lia. }
  split; [rewrite Hlk; by case_decide|].
  split; [rewrite Hlk; repeat case_decide; by subst|].
  split; [intros k Hki Hkj; rewrite Hlk; by repeat case_decide|].
  split; [apply Swap_length|]. split; [apply Swap_perm|by apply Swap_involutive].
Qed.

Lemma Swap_exchanges_witness :
  let w := [mkWordCount "a" 1; mkWordCount "c" 1; mkWordCount "b" 1] in
  Swap w 0 2 !! 0 = w !! 2 ∧ Swap w 0 2 !! 2 = w !! 0 ∧
  (∀ k, k ≠ 0 → k ≠ 2 → Swap w 0 2 !! k = w !! k) ∧
  length (Swap w 0 2) = length w ∧ Swap w 0 2 ≡ₚ w ∧
  Swap (Swap w 0 2) 0 2 = w.
Proof.
  apply (Swap_exchanges
           [mkWordCount "a" 1; mkWordCount "c" 1; mkWordCount "b" 1] 0 2);
    simpl; lia.
Defined.

(** ** reducer *)

Local Open Scope Z_scope.

Lemma int_wrap_add_l x y : int_wrap (int_wrap x + y) = int_wrap (x + y).
Proof.
  unfold int_wrap.
  replace ((x + 2 ^ (int_bits - 1)) mod 2 ^ int_bits - 2 ^ (int_bits - 1) + y
           + 2 ^ (int_bits - 1))
    with ((x + 2 ^ (int_bits - 1)) mod 2 ^ int_bits + y) by lia.
  rewrite Zplus_mod_idemp_l. f_equal. f_equal. lia.
Qed.

Lemma int_wrap_idemp x : int_wrap (int_wrap x) = int_wrap x.
Proof.
  rewrite <-(Z.add_0_r (int_wrap x)) at 1. rewrite int_wrap_add_l. f_equal. lia.
Qed.

Lemma int_wrap_small x :
  - 2 ^ 63 <= x < 2 ^ 63 → int_wrap x = x.
Proof.
  intros Hx. unfold int_wrap, int_bits. change (64 - 1) with 63.
  rewrite Z.mod_small; lia.
Qed.

Local Open Scope nat_scope.

Lemma group_total_absent w (l : list wordCount) :
  Forall (λ x, word x ≠ w) l → group_total w l = 0%Z.
Proof.
  induction 1 as [|x l Hx Hall IH]; simpl; [done|].
  rewrite (proj2 (String.eqb_neq _ _) Hx), IH. done.
Qed.

Lemma sorted_above_absent wc inp rest :
  word_le wc inp → word wc ≠ word inp → Forall (word_le inp) rest →
  Forall (λ x, word x ≠ word wc) (inp :: rest).
Proof.
  intros Hle Hne Hrest.
  assert (str_lt (word wc) (word inp)) as Hlt by (by apply str_lt_iff).
  constructor; [done|].
  eapply Forall_impl; [exact Hrest|]. intros x Hx Heq.
  pose proof (str_lt_le_trans _ _ _ Hlt Hx) as Hl.
  apply str_lt_iff in Hl as [_ Hn]. by apply Hn.
Qed.

Lemma reducer_loop_counts input wc :
  StronglySorted word_le (wc :: input) →
  count wc = int_wrap (count wc) →
  Forall (λ o, count o =
               if String.eqb (word o) (word wc)
               then int_wrap (count wc + group_total (word wc) input)
               else int_wrap (first_count (word o) input +
                              group_total (word o) input))
         (reducer_loop wc input).
Proof.
  revert wc. induction input as [|inp rest IH]; intros wc Hs Hwc;
    cbn [reducer_loop].
  { constructor. }
  pose proof Hs as Hs0.
  apply StronglySorted_cons in Hs as [Hall Hs].
  apply Forall_cons in Hall as [Hle Hall].
  apply StronglySorted_cons in Hs as [Hrest Hs].
  destruct (decide (word wc = word inp)) as [Heq|Hne].
  - rewrite reducer_step_same by done. cbn [app].
    set (wc' := mkWordCount (word wc) _).
    assert (StronglySorted word_le (wc' :: rest)) as Hs'.
    { apply StronglySorted_cons. split; [|done].
      eapply Forall_impl; [exact Hall|]. intros r Hr. exact Hr. }
    eapply Forall_impl; [apply (IH wc' Hs')|].
    { simpl. unfold int_add. by rewrite int_wrap_idemp. }
    intros o Ho. rewrite Ho. simpl.
    rewrite <-Heq. destruct (String.eqb (word o) (word wc)) eqn:E.
    + rewrite String.eqb_refl. unfold int_add. rewrite int_wrap_add_l.
      f_equal. lia.
    + rewrite String.eqb_sym, E. done.
  - rewrite reducer_step_new by done.
    set (wc' := mkWordCount (word inp) _).
    assert (StronglySorted word_le (wc' :: rest)) as Hs'.
    { apply StronglySorted_cons. split; [|done].
      eapply Forall_impl; [exact Hrest|]. intros r Hr. exact Hr. }
    assert (Forall (λ o, count o =
               if String.eqb (word o) (word wc)
               then int_wrap (count wc + group_total (word wc) (inp :: rest))
               else int_wrap (first_count (word o) (inp :: rest) +
                              group_total (word o) (inp :: rest)))
              (reducer_loop wc' rest)) as Hrec.
    { pose proof (IH wc' Hs') as Hih.
      destruct (reducer_loop_sorted rest wc' Hs') as [_ Hge].
      rewrite Forall_forall in Hih, Hge. apply Forall_forall. intros o Ho.
      rewrite Hih by (done || (simpl; unfold int_add; by rewrite int_wrap_idemp)).
      assert (word o ≠ word wc) as Hno.
      { intros Heq. specialize (Hge o Ho). unfold word_le in Hge. simpl in Hge.
        assert (str_lt (word wc) (word inp)) as Hlt by (by apply str_lt_iff).
        pose proof (str_lt_le_trans _ _ _ Hlt Hge) as Hl.
        apply str_lt_iff in Hl as [_ Hn]. by apply Hn. }
      rewrite (proj2 (String.eqb_neq _ _) Hno). simpl.
      destruct (String.eqb (word o) (word inp)) eqn:E.
      - apply String.eqb_eq in E. rewrite E, String.eqb_refl.
        unfold int_add. rewrite int_wrap_add_l. f_equal. lia.
      - rewrite String.eqb_sym, E. done. }
    destruct (String.eqb (word wc) "") eqn:E0; cbn [app]; [done|].
    constructor; [|done].
    rewrite String.eqb_refl, group_total_absent, Z.add_0_r; [done|].
    by apply (sorted_above_absent wc inp rest).
Qed.

Lemma sorted_with_zero input :
  StronglySorted word_le input → StronglySorted word_le (wc_zero :: input).
Proof.
  intros Hs. apply StronglySorted_cons. split; [|done].
  apply Forall_forall. intros x _. apply str_le_empty.
Qed.

(** The words of the records sent, for a sorted input. *)
Lemma reducer_loop_words input wc w :
  StronglySorted word_le (wc :: input) →
  w ∈ map word (reducer_loop wc input) ↔
  w ≠ "" ∧ (w = word wc ∨ w ∈ map word input) ∧
  ∃ y, y ∈ input ∧ str_lt w (word y).
Proof.
  revert wc. induction input as [|inp rest IH]; intros wc Hs; simpl.
  { split; [by intros ?%elem_of_nil|]. intros (_ & _ & y & Hy & _).
    by apply elem_of_nil in Hy. }
  pose proof Hs as Hs0.
  apply StronglySorted_cons in Hs as [Hall Hs].
  apply Forall_cons in Hall as [Hle Hall].
  apply StronglySorted_cons in Hs as [Hrest Hs].
  assert (∀ x, x ∈ rest → str_le (word inp) (word x)) as Hge.
  { intros x Hx. rewrite Forall_forall in Hrest. by apply Hrest. }
  assert (∀ v, v ∈ map word rest → str_le (word inp) v) as Hgew.
  { intros v (x & -> & Hx)%list_elem_of_fmap. by apply Hge. }
  assert (∀ a b, str_lt a b → str_le b a → False) as Hirr.
  { intros a b Hab Hba. pose proof (str_lt_le_trans _ _ _ Hab Hba) as Hl.
    apply str_lt_iff in Hl as [_ Hn]. by apply Hn. }
  destruct (decide (word wc = word inp)) as [Heq|Hne].
  - rewrite reducer_step_same by done. simpl.
    set (wc' := mkWordCount (word wc) _).
    rewrite (IH wc').
    2:{ apply StronglySorted_cons. split; [|done].
        eapply Forall_impl; [exact Hall|]. intros r Hr. exact Hr. }
    simpl. split.
    + intros (Hw & Hmid & y & Hy & Hlt). split; [done|]. split.
      * destruct Hmid as [->|Hin]; [by left|]. right. apply elem_of_cons. by right.
      * exists y. split; [apply elem_of_cons; by right|done].
    + intros (Hw & Hmid & y & Hy & Hlt). split; [done|].
      assert (str_le (word inp) w) as Hlow.
      { destruct Hmid as [->|[->|Hin]%elem_of_cons].
        - rewrite Heq. apply str_le_refl.
        - apply str_le_refl.
        - by apply Hgew. }
      split.
      * destruct Hmid as [->|[->|Hin]%elem_of_cons]; [by left|by left|by right].
      * apply elem_of_cons in Hy as [->|Hy]; [by destruct (Hirr _ _ Hlt Hlow)|].
        by exists y.
  - rewrite reducer_step_new by done.
    set (wc' := mkWordCount (word inp) _).
    assert (str_lt (word wc) (word inp)) as Hlt0 by (by apply str_lt_iff).
    rewrite map_app, elem_of_app, (IH wc').
    2:{ apply StronglySorted_cons. split; [|done].
        eapply Forall_impl; [exact Hrest|]. intros r Hr. exact Hr. }
    simpl. split.
    + intros [Hsent|(Hw & Hmid & y & Hy & Hlt)].
      * destruct (String.eqb (word wc) "") eqn:E0; simpl in Hsent;
          [by apply elem_of_nil in Hsent|].
        apply list_elem_of_singleton in Hsent as ->.
        apply String.eqb_neq in E0. split; [done|]. split; [by left|].
        exists inp. split; [apply elem_of_cons; by left|done].
      * split; [done|]. split.
        -- right. apply elem_of_cons.
           destruct Hmid as [->|Hin]; [by left|by right].
        -- exists y. split; [apply elem_of_cons; by right|done].
    + intros (Hw & Hmid & y & Hy & Hlt).
      destruct Hmid as [->|Hin].
      * left. rewrite (proj2 (String.eqb_neq _ _) Hw). simpl.
        apply elem_of_cons. by left.
      * right. split; [done|].
        assert (str_le (word inp) w) as Hlow.
        { apply elem_of_cons in Hin as [->|Hin]; [apply str_le_refl|by apply Hgew]. }
        split; [apply elem_of_cons in Hin as [->|Hin]; [by left|by right]|].
        apply elem_of_cons in Hy as [->|Hy]; [by destruct (Hirr _ _ Hlt Hlow)|].
        by exists y.
Qed.

Lemma reducer_loop_length input wc :
  length (reducer_loop wc input) ≤ length input.
Proof.
  revert wc. induction input as [|inp rest IH]; intros wc; cbn [reducer_loop];
    [done|].
  destruct (decide (word wc = word inp)) as [Heq|Hne].
  - rewrite reducer_step_same by done. cbn [app length]. specialize (IH (mkWordCount (word wc) (int_add (count wc) (count inp)))). lia.
  - rewrite reducer_step_new by done.
    specialize (IH (mkWordCount (word inp) (int_add (count inp) (count inp)))).
    destruct (String.eqb (word wc) ""); cbn [app length]; lia.
Qed.

Lemma reducer_loop_from_input input wc :
  Forall (λ o, word o = word wc ∨ word o ∈ map word input)
         (reducer_loop wc input).
Proof.
  revert wc. induction input as [|inp rest IH]; intros wc; cbn [reducer_loop];
    [constructor|].
  assert (∀ wc', word wc' = word inp →
            Forall (λ o, word o = word wc ∨ word o ∈ map word (inp :: rest))
                   (reducer_loop wc' rest)) as Hnext.
  { intros wc' Hw. eapply Forall_impl; [apply (IH wc')|].
    intros o [Ho|Ho]; right; simpl; apply elem_of_cons;
      [left; congruence|by right]. }
  destruct (decide (word wc = word inp)) as [Heq|Hne].
  - rewrite reducer_step_same by done. cbn [app]. by apply Hnext.
  - rewrite reducer_step_new by done.
    destruct (String.eqb (word wc) ""); cbn [app]; [by apply Hnext|].
    constructor; [by left|by apply Hnext].
Qed.

Lemma reducer_from_input input :
  Forall (λ o, word o ∈ map word input) (reducer input).
Proof.
  pose proof (reducer_loop_from_input input wc_zero) as Hall.
  pose proof (reducer_loop_nonempty input wc_zero) as Hne.
  rewrite Forall_forall in Hall, Hne. apply Forall_forall. intros o Ho.
  destruct (Hall o Ho) as [Heq|Hin]; [|done]. by destruct (Hne o Ho).
Qed.

Lemma occurrences_perm w (l1 l2 : list wordCount) :
  l1 ≡ₚ l2 → occurrences w l1 = occurrences w l2.
Proof.
  unfold occurrences.
  induction 1 as [|x l1 l2 Hp IH|x y l|l1 l2 l3 H1 IH1 H2 IH2]; simpl.
  - done.
  - destruct (String.eqb (word x) w); simpl; by rewrite IH.
  - destruct (String.eqb (word x) w), (String.eqb (word y) w); done.
  - by rewrite IH1.
Qed.

Lemma group_total_ones w (l : list wordCount) :
  Forall (λ r, count r = 1%Z) l →
  group_total w l = Z.of_nat (occurrences w l).
Proof.
  unfold occurrences. induction 1 as [|x l Hx Hall IH]; simpl; [done|].
  rewrite IH. destruct (String.eqb (word x) w); simpl; lia.
Qed.

Lemma first_count_ones w (l : list wordCount) :
  Forall (λ r, count r = 1%Z) l → w ∈ map word l → first_count w l = 1%Z.
Proof.
  induction 1 as [|x l Hx Hall IH]; simpl; [by intros ?%elem_of_nil|].
  intros [->|Hin]%elem_of_cons.
  - by rewrite String.eqb_refl.
  - destruct (String.eqb (word x) w); [done|by apply IH].
Qed.

Lemma mapper_counts_one (lines : list string) :
  Forall (λ r, count r = 1%Z) (mapper lines mapFn).
Proof.
  unfold mapper. induction lines as [|line lines IH]; simpl; [constructor|].
  apply Forall_app. split; [|done].
  eapply Forall_impl; [apply mapFn_records|]. by intros r (Hc & _).
Qed.

(** X7.  On any input, sorted or not, the reducer sends only records whose
    word is the word of a record received, and fewer records than it
    receives. *)
Theorem reducer_sends_fewer (input : list wordCount) :
  Forall (λ o, word o ∈ map word input) (reducer input) ∧
  length (reducer input) ≤ pred (length input).
Proof.
  split; [apply reducer_from_input|].
  destruct input as [|inp rest]; [done|].
  unfold reducer. cbn [reducer_loop].
  destruct (decide (word wc_zero = word inp)) as [Heq|Hne].
  - rewrite reducer_step_same by done. cbn [app length]. apply reducer_loop_length.
  - rewrite reducer_step_new by done. cbn [app length]. apply reducer_loop_length.
Qed.

(** X8.  On a sorted input the words of the records sent are the words of
    the input that are not empty and below another word of the input:
    every word but the greatest (and the empty one). *)
Theorem reducer_words (input : list wordCount) (w : string) :
  StronglySorted word_le input →
  w ∈ map word (reducer input) ↔
  w ≠ "" ∧ w ∈ map word input ∧ ∃ y, y ∈ input ∧ str_lt w (word y).
Proof.
  intros Hs. unfold reducer.
  rewrite (reducer_loop_words input wc_zero w (sorted_with_zero input Hs)).
  simpl. split.
  - intros (Hw & [Hz|Hin] & Hy); [done|]. by repeat split.
  - intros (Hw & Hin & Hy). split; [done|]. split; [by right|done].
Qed.

Lemma reducer_words_witness :
  "a" ∈ map word (reducer [mkWordCount "a" 1; mkWordCount "b" 1]) ↔
  "a" ≠ "" ∧ "a" ∈ map word [mkWordCount "a" 1; mkWordCount "b" 1] ∧
  ∃ y, y ∈ [mkWordCount "a" 1; mkWordCount "b" 1] ∧ str_lt "a" (word y).
Proof.
  apply (reducer_words [mkWordCount "a" 1; mkWordCount "b" 1] "a").
  repeat constructor.
Defined.

Lemma reducer_loop_counts_sorted (input : list wordCount) :
  StronglySorted word_le input →
  Forall (λ o, count o = int_wrap (first_count (word o) input +
                                   group_total (word o) input))
         (reducer input).
Proof.
  intros Hs.
  pose proof (reducer_loop_counts input wc_zero (sorted_with_zero input Hs) eq_refl)
    as Hall.
  pose proof (reducer_loop_nonempty input wc_zero) as Hne.
  rewrite Forall_forall in Hall, Hne. apply Forall_forall. intros o Ho.
  rewrite (Hall o Ho). simpl.
  by rewrite (proj2 (String.eqb_neq _ _) (Hne o Ho)).
Qed.

(** X9.  On a sorted input every record sent holds, in the arithmetic of
    [int], the counts of the records of its word added up, plus once more
    the count of the first of them. *)
Theorem reducer_counts (input : list wordCount) :
  StronglySorted word_le input →
  Forall (λ o, count o = int_wrap (first_count (word o) input +
                                   group_total (word o) input))
         (reducer input).
Proof. apply reducer_loop_counts_sorted. Qed.

Lemma reducer_counts_witness :
  Forall (λ o, count o =
               int_wrap (first_count (word o)
                           [mkWordCount "a" 3; mkWordCount "a" 4; mkWordCount "b" 1] +
                         group_total (word o)
                           [mkWordCount "a" 3; mkWordCount "a" 4; mkWordCount "b" 1]))
         (reducer [mkWordCount "a" 3; mkWordCount "a" 4; mkWordCount "b" 1]).
Proof.
  apply (reducer_counts [mkWordCount "a" 3; mkWordCount "a" 4; mkWordCount "b" 1]).
  repeat constructor.
Defined.

(** ** The pipeline *)

(** X10.  Every record that the pipeline sends holds, in the arithmetic of
    [int], the number of occurrences of its word in the lines plus one. *)
Theorem pipeline_counts (lines : list string) :
  Forall (λ r, count r =
               int_wrap (Z.of_nat (occurrences (word r) (mapper lines mapFn)) + 1))
         (pipeline lines).
Proof.
  unfold pipeline. set (m := mapper lines mapFn).
  pose proof (sorter_perm m) as Hp.
  assert (Forall (λ r, count r = 1%Z) (sorter m)) as Hones.
  { rewrite Hp. apply mapper_counts_one. }
  pose proof (reducer_loop_counts_sorted (sorter m) (sorter_sorted m)) as Hall.
  pose proof (reducer_from_input (sorter m)) as Hin.
  rewrite Forall_forall in Hall, Hin. apply Forall_forall. intros o Ho.
  rewrite (Hall o Ho), (first_count_ones _ _ Hones (Hin o Ho)).
  rewrite (group_total_ones _ _ Hones), (occurrences_perm _ _ _ Hp).
  f_equal. lia.
Qed.

(** X11.  When the reducer is given what the sorter sends on the records
    of the mapper, each stage reading its input to the end, the words of
    the records it sends are the words of the mapper's records that are
    below another of them: every word of the lines but the greatest. *)
Theorem stages_words (lines : list string) (w : string) :
  w ∈ map word (reducer (sorter (mapper lines mapFn))) ↔
  w ∈ map word (mapper lines mapFn) ∧
  ∃ w', w' ∈ map word (mapper lines mapFn) ∧ str_lt w w'.
Proof.
  set (m := mapper lines mapFn).
  pose proof (sorter_perm m) as Hp.
  assert (∀ v, v ∈ map word (sorter m) ↔ v ∈ map word m) as Hw.
  { intros v. by rewrite Hp. }
  assert (∀ y, y ∈ sorter m ↔ y ∈ m) as Hy.
  { intros y. by rewrite Hp. }
  unfold reducer.
  rewrite (reducer_loop_words _ wc_zero w (sorted_with_zero _ (sorter_sorted m))).
  simpl. split.
  - intros (Hne & [Hz|Hin] & y & Hyin & Hlt); [done|].
    split; [by apply Hw|]. exists (word y). split; [|done].
    apply list_elem_of_fmap. exists y. split; [done|by apply Hy].
  - intros (Hin & w' & (y & -> & Hyin)%list_elem_of_fmap & Hlt).
    split.
    + pose proof (mapper_words_nonempty lines) as Hne.
      rewrite Forall_forall in Hne.
      apply list_elem_of_fmap in Hin as (x & -> & Hx). by apply Hne.
    + split; [right; by apply Hw|]. exists y. split; [by apply Hy|done].
Qed.

(** X12.  What the reducer sends, given what the sorter sends on the
    records of the mapper, each stage reading its input to the end, does
    not depend on the order in which the mapper receives the lines. *)
Theorem stages_order_independent (lines1 lines2 : list string) :
  lines1 ≡ₚ lines2 →
  reducer (sorter (mapper lines1 mapFn)) = reducer (sorter (mapper lines2 mapFn)).
Proof.
  intros Hp. f_equal.
  assert (mapper lines1 mapFn ≡ₚ mapper lines2 mapFn) as Hm.
  { unfold mapper. induction Hp; simpl.
    - done.
    - by f_equiv.
    - rewrite !app_assoc. f_equiv. apply Permutation_app_comm.
    - by etrans. }
  apply (StronglySorted_unique_strong word_le).
  - intros x1 x2 Hx1 Hx2 H12 H21.
    pose proof (mapper_counts_one lines1) as H1.
    pose proof (mapper_counts_one lines2) as H2.
    rewrite Forall_forall in H1, H2.
    rewrite sorter_perm in Hx1, Hx2.
    specialize (H1 x1 Hx1). specialize (H2 x2 Hx2).
    destruct x1 as [w1 c1], x2 as [w2 c2]. simpl in *. subst.
    f_equal. by apply str_le_antisym.
  - apply sorter_sorted.
  - apply sorter_sorted.
  - by rewrite !sorter_perm.
Qed.

Lemma stages_order_independent_witness :
  reducer (sorter (mapper ["b a"; "a c"] mapFn)) =
  reducer (sorter (mapper ["a c"; "b a"] mapFn)).
Proof.
  apply (stages_order_independent ["b a"; "a c"] ["a c"; "b a"]).
  apply perm_swap.
Defined.

(** ** mapFn *)

Local Open Scope Z_scope.

Lemma decode_ascii c t :
  utf8.byte_val c < 128 →
  utf8.DecodeRuneInString (String c t) = (utf8.byte_val c, 1%nat).
Proof.
  intros Hc. unfold utf8.DecodeRuneInString.
  change (utf8.byte_at (String c t) 0) with (utf8.byte_val c).
  cbn [String.length].
  destruct (Z.of_nat (S (String.length t)) <? 1) eqn:E;
    [apply Z.ltb_lt in E; lia|].
  unfold utf8.first. rewrite (proj2 (Z.ltb_lt _ _) Hc). reflexivity.
Qed.

Lemma range_ascii (s : string) :
  Forall (λ c, utf8.byte_val c < 128) (list_ascii_of_string s) →
  utf8.range s =
    map (λ c, (utf8.byte_val c, String c "")) (list_ascii_of_string s).
Proof.
  unfold utf8.range. induction s as [|c t IH]; simpl; [done|].
  intros [Hc Hall]%Forall_cons. rewrite decode_ascii by done.
  cbn [Nat.sub]. rewrite substring_0_0, IH by done. done.
Qed.

Lemma token_string_ascii (s : string) :
  token_string (map (λ c, (utf8.byte_val c, String c "")) (list_ascii_of_string s))
  = s.
Proof. induction s as [|c t IH]; simpl; [done|]. by rewrite IH. Qed.

Lemma FieldsFunc_loop_nospace (rs : list (Z * string)) (w : string) :
  Forall (λ rb, unicode.IsSpace rb.1 = false) rs →
  strings.FieldsFunc_loop unicode.IsSpace (Some w) rs = [w +:+ token_string rs].
Proof.
  intros Hall. revert w. induction Hall as [|[r b] rs Hr Hall IH]; intros w.
  - simpl. by rewrite string_app_nil_r.
  - cbn [strings.FieldsFunc_loop token_string]. simpl in Hr. rewrite Hr, IH.
    by rewrite string_app_assoc.
Qed.

Lemma IsSpace_lower r : 0x61 <= r <= 0x7A → unicode.IsSpace r = false.
Proof.
  intros Hr. unfold unicode.IsSpace.
  rewrite (proj2 (Z.leb_le 0 r)) by lia. rewrite (proj2 (Z.leb_le r 255)) by lia.
  simpl. rewrite (proj2 (Z.leb_gt r 13)) by lia. rewrite andb_false_r. simpl.
  rewrite (proj2 (Z.eqb_neq r 32)) by lia. rewrite (proj2 (Z.eqb_neq r 133)) by lia.
  rewrite (proj2 (Z.eqb_neq r 160)) by lia. done.
Qed.

Lemma Fields_lower (w : string) :
  w ≠ "" → lower_letters w → strings.Fields w = [w].
Proof.
  intros Hne Hl. unfold strings.Fields, strings.FieldsFunc.
  rewrite range_ascii.
  2:{ eapply Forall_impl; [exact Hl|]. simpl. intros c Hc. lia. }
  destruct w as [|c t]; [done|]. simpl.
  apply Forall_cons in Hl as [Hc Hl].
  rewrite IsSpace_lower by done.
  rewrite FieldsFunc_loop_nospace.
  - by rewrite token_string_ascii.
  - apply Forall_fmap. eapply Forall_impl; [exact Hl|]. simpl.
    intros c' Hc'. by apply IsSpace_lower.
Qed.

Lemma normalize_lower_id (w : string) : lower_letters w → normalize w = w.
Proof.
  unfold lower_letters, normalize. induction w as [|c t IH]; simpl; [done|].
  intros [Hc Hl]%Forall_cons.
  assert (is_letter_byte c = true) as ->.
  { unfold is_letter_byte, is_alpha.
    rewrite (proj2 (Z.leb_le 97 _)), (proj2 (Z.leb_le _ 122)) by lia. done. }
  simpl. rewrite IH by done. f_equal.
  unfold strings.lower_byte. rewrite (proj2 (Z.leb_gt _ 90)) by lia.
  by rewrite andb_false_r.
Qed.

Lemma mapFn_lower_word (w : string) :
  w ≠ "" → lower_letters w → mapFn w = [mkWordCount w 1].
Proof.
  intros Hne Hl. rewrite mapFn_normalize, Fields_lower by done. simpl.
  rewrite normalize_lower_id by done. by destruct w.
Qed.

(** X13.  A word that [mapFn] returns is in normal form: given back to
    [mapFn] as a line, it comes out as the same single record. *)
Theorem mapFn_words_are_fixpoints (line : string) :
  Forall (λ r, mapFn (word r) = [r]) (mapFn line).
Proof.
  eapply Forall_impl; [apply mapFn_records|].
  intros [w c] (Hc & Hne & Hl). simpl in *. subst c. by apply mapFn_lower_word.
Qed.

(** X14.  Replacing the matches of [nonAlpha] by the empty string keeps
    the bytes of the string that are ASCII letters, in their order, and
    nothing else: the bytes of a rune that is not a letter all go, whether
    the rune is well encoded or not. *)
Theorem nonAlpha_keeps_letter_bytes (w : string) :
  regexp.ReplaceAllString nonAlpha w "" = string_filter is_letter_byte w.
Proof. apply ReplaceAllString_letters. Qed.

Lemma decode_local c t a u :
  utf8.byte_val a < 128 →
  utf8.DecodeRuneInString (String c (t +:+ String a u)) =
  utf8.DecodeRuneInString (String c t).
Proof.
  intros Ha. unfold utf8.DecodeRuneInString.
  pose proof (byte_val_range c) as Hc.
  change (utf8.byte_at (String c (t +:+ String a u)) 0) with (utf8.byte_val c).
  change (utf8.byte_at (String c t) 0) with (utf8.byte_val c).
  unfold utf8.locb, utf8.hicb, utf8.RuneError.
  destruct (first_cases _ Hc) as
    [[H0 Hf]|[[H0 Hf]|[[H0 Hf]|[[H0 Hf]|[[H0 Hf]|[[H0 Hf]|[[H0 Hf]|[[H0 Hf]|[H0 Hf]]]]]]]]];
    rewrite Hf; cbv zeta;
    destruct t as [|c1 [|c2 [|c3 t3]]];
    rewrite ?string_app_cons, ?string_app_nil_l;
    cbn [utf8.byte_at String.get String.length].
  all: match goal with |- context [?k >=? 240] => fold_class k end.
  all: repeat match goal with
         | |- context [if ?b then _ else _] => destruct b eqn:?
         end.
  all: first [reflexivity | exfalso; bool_hyps; lia].
Qed.

Local Open Scope nat_scope.

Lemma substring_app_prefix (k : nat) (s u : string) :
  k ≤ String.length s → String.substring 0 k (s +:+ u) = String.substring 0 k s.
Proof.
  revert k. induction s as [|c s IH]; intros [|k] Hk; simpl in Hk.
  - by rewrite string_app_nil_l, substring_0_0.
  - lia.
  - by rewrite !substring_0_0.
  - rewrite string_app_cons. cbn [String.substring]. by rewrite IH by lia.
Qed.

Lemma range_from_app_ascii (s1 : string) a u skip :
  (utf8.byte_val a < 128)%Z → skip ≤ String.length s1 →
  utf8.range_from skip (s1 +:+ String a u) =
    utf8.range_from skip s1 ++ utf8.range (String a u).
Proof.
  intros Ha. revert skip. induction s1 as [|c t IH]; intros skip Hskip.
  { simpl in Hskip. replace skip with 0 by lia. by rewrite string_app_nil_l. }
  rewrite string_app_cons. cbn [String.length] in Hskip.
  destruct skip as [|k]; cbn [utf8.range_from].
  - rewrite decode_local by done.
    destruct (utf8.DecodeRuneInString (String c t)) as [r size] eqn:Hd.
    destruct (decode_ok c t r size Hd) as [Hsize _].
    cbn [String.length] in Hsize.
    rewrite <-string_app_cons, substring_app_prefix by (cbn [String.length]; lia).
    rewrite IH by lia. done.
  - apply IH. lia.
Qed.

Lemma range_app_space (l1 l2 : string) :
  utf8.range (l1 +:+ String " " l2) =
    utf8.range l1 ++ (32%Z, String " " "") :: utf8.range l2.
Proof.
  unfold utf8.range at 1. rewrite range_from_app_ascii by (done || lia).
  f_equal. unfold utf8.range. cbn [utf8.range_from].
  rewrite decode_ascii by done. cbn [String.substring Nat.sub].
  rewrite substring_0_0. reflexivity.
Qed.

Lemma FieldsFunc_loop_app f start (rs1 rs2 : list (Z * string)) r b :
  f r = true →
  strings.FieldsFunc_loop f start (rs1 ++ (r, b) :: rs2) =
    strings.FieldsFunc_loop f start rs1 ++ strings.FieldsFunc_loop f None rs2.
Proof.
  intros Hr. revert start. induction rs1 as [|[r1 b1] rs1 IH]; intros start.
  - simpl. rewrite Hr. by destruct start.
  - cbn [app strings.FieldsFunc_loop].
    destruct (f r1), start; by rewrite IH.
Qed.

Lemma Fields_app_space (l1 l2 : string) :
  strings.Fields (l1 +:+ String " " l2) = strings.Fields l1 ++ strings.Fields l2.
Proof.
  unfold strings.Fields, strings.FieldsFunc.
  rewrite range_app_space. by apply FieldsFunc_loop_app.
Qed.

(** X15.  A space between two texts separates their words: [mapFn] on the
    two texts joined by a space returns the records of the first followed
    by the records of the second, so that the mapper sends the same records
    for two lines as for the one line made of both. *)
Theorem mapFn_app_space (l1 l2 : string) :
  mapFn (l1 +:+ String " " l2) = mapFn l1 ++ mapFn l2 ∧
  mapper [l1; l2] mapFn = mapper [l1 +:+ String " " l2] mapFn.
Proof.
  assert (mapFn (l1 +:+ String " " l2) = mapFn l1 ++ mapFn l2) as H.
  { rewrite !mapFn_normalize, Fields_app_space.
    by rewrite map_app, List.filter_app, map_app. }
  split; [done|]. unfold mapper. simpl. by rewrite H, !app_nil_r.
Qed.

(** ** The report *)

Lemma string_filter_keep p (s : string) :
  Forall (λ c, p c = true) (list_ascii_of_string s) → string_filter p s = s.
Proof.
  induction s as [|c s IH]; simpl; [done|].
  intros [Hc Hall]%Forall_cons. by rewrite Hc, IH.
Qed.

Lemma string_filter_drop p (s : string) :
  Forall (λ c, p c = false) (list_ascii_of_string s) → string_filter p s = "".
Proof.
  induction s as [|c s IH]; simpl; [done|].
  intros [Hc Hall]%Forall_cons. by rewrite Hc, IH.
Qed.

Lemma uint_digits (d : Decimal.uint) :
  Forall (λ c, is_num_byte c = true ∧ is_letter_byte c = false)
         (list_ascii_of_string (NilEmpty.string_of_uint d)).
Proof. induction d; simpl; constructor; done. Qed.

Lemma format_int_digits (z : Z) :
  Forall (λ c, is_num_byte c = true ∧ is_letter_byte c = false)
         (list_ascii_of_string (fmt.format_int z)).
Proof.
  unfold fmt.format_int, NilZero.string_of_int, NilZero.string_of_uint.
  destruct (Z.to_int z) as [d|d]; destruct d;
    repeat (first [done | constructor | apply uint_digits]).
Qed.

Lemma format_int_inj (z1 z2 : Z) :
  fmt.format_int z1 = fmt.format_int z2 → z1 = z2.
Proof.
  unfold fmt.format_int. intros Heq.
  assert (∀ z, Z.to_int z ≠ Decimal.Pos Decimal.Nil ∧
               Z.to_int z ≠ Decimal.Neg Decimal.Nil) as Hnn.
  { intros [|p|p]; simpl; split; try discriminate;
      intros [= H]; by apply Unsigned.to_uint_nonnil in H. }
  apply (f_equal NilZero.int_of_string) in Heq.
  rewrite !NilZero.isi in Heq by apply Hnn.
  injection Heq as Heq. apply (f_equal Z.of_int) in Heq.
  by rewrite !DecimalZ.of_to in Heq.
Qed.

Lemma format_int_parse (z : Z) :
  option_map Z.of_int (NilZero.int_of_string (fmt.format_int z)) = Some z.
Proof.
  unfold fmt.format_int. rewrite NilZero.isi.
  - simpl. by rewrite DecimalZ.of_to.
  - destruct z; simpl; try discriminate.
    intros [= H]. by apply Unsigned.to_uint_nonnil in H.
  - destruct z; simpl; try discriminate.
    intros [= H]. by apply Unsigned.to_uint_nonnil in H.
Qed.

Lemma spaces_filter p n : p " "%char = false → string_filter p (fmt.spaces n) = "".
Proof. intros Hp. induction n as [|n IH]; simpl; [done|]. by rewrite Hp. Qed.

Lemma spaces_length n : String.length (fmt.spaces n) = n.
Proof. induction n as [|n IH]; simpl; [done|]. by rewrite IH. Qed.

Lemma string_app_length (s t : string) :
  String.length (s +:+ t) = String.length s + String.length t.
Proof.
  induction s as [|c s IH]; [done|]. rewrite string_app_cons. simpl. by rewrite IH.
Qed.

Lemma lower_letters_filter (w : string) :
  lower_letters w →
  Forall (λ c, is_letter_byte c = true) (list_ascii_of_string w) ∧
  Forall (λ c, is_num_byte c = false) (list_ascii_of_string w).
Proof.
  unfold lower_letters. intros Hl. split.
  - eapply Forall_impl; [exact Hl|]. simpl. intros c Hc.
    unfold is_letter_byte, is_alpha.
    by rewrite (proj2 (Z.leb_le 97 _)), (proj2 (Z.leb_le _ 122)) by lia.
  - eapply Forall_impl; [exact Hl|]. simpl. intros c Hc.
    unfold is_num_byte. cbv zeta.
    rewrite (proj2 (Z.leb_gt _ 57)) by lia.
    rewrite (proj2 (Z.eqb_neq _ 45)) by lia. by rewrite andb_false_r.
Qed.

Lemma RuneCount_ascii (s : string) :
  Forall (λ c, (utf8.byte_val c < 128)%Z) (list_ascii_of_string s) →
  fmt.RuneCountInString s = String.length s.
Proof.
  intros Hs. unfold fmt.RuneCountInString. rewrite range_ascii by done.
  rewrite length_map. clear Hs. induction s as [|c s IH]; simpl; [done|].
  by rewrite IH.
Qed.

(** X16.  The line printed for a record whose word is made of lower-case
    letters tells the record: the letters of the line are the word, and the
    digits of the line, with the minus sign, read as a decimal number are
    the count.  The word is never cut, however long it is. *)
Theorem print_record_round_trip (r : wordCount) :
  lower_letters (word r) →
  string_filter is_letter_byte (print_record r) = word r ∧
  option_map Z.of_int
    (NilZero.int_of_string (string_filter is_num_byte (print_record r)))
  = Some (count r).
Proof.
  intros Hl. destruct (lower_letters_filter _ Hl) as [Hlet Hnum].
  pose proof (format_int_digits (count r)) as Hd.
  unfold print_record, fmt.pad_right, fmt.pad_left.
  rewrite !string_filter_app. split.
  - rewrite (string_filter_keep _ _ Hlet), !spaces_filter by done.
    rewrite (string_filter_drop _ (fmt.format_int (count r))).
    2:{ eapply Forall_impl; [exact Hd|]. by intros c [_ Hc]. }
    simpl. by rewrite !string_app_nil_r.
  - rewrite (string_filter_drop _ _ Hnum), !spaces_filter by done.
    rewrite (string_filter_keep _ (fmt.format_int (count r))).
    2:{ eapply Forall_impl; [exact Hd|]. by intros c [Hc _]. }
    simpl. rewrite !string_app_nil_l, string_app_nil_r. apply format_int_parse.
Qed.

Lemma print_record_round_trip_witness :
  string_filter is_letter_byte (print_record (mkWordCount "cat" 3)) = "cat" ∧
  option_map Z.of_int
    (NilZero.int_of_string
       (string_filter is_num_byte (print_record (mkWordCount "cat" 3))))
  = Some 3%Z.
Proof.
  apply (print_record_round_trip (mkWordCount "cat" 3)).
  unfold lower_letters. simpl. repeat constructor; vm_compute; discriminate.
Defined.

Lemma format_int_short (z : Z) :
  (0 <= z <= 9999)%Z → 1 ≤ String.length (fmt.format_int z) ≤ 4.
Proof.
  intros Hz.
  assert (forallb (λ n, let k := String.length (fmt.format_int (Z.of_nat n)) in
                        (1 <=? k) && (k <=? 4))
                 (seq 0 (Z.to_nat 10000)) = true) as Hall
    by (vm_compute; reflexivity).
  rewrite forallb_forall in Hall.
  specialize (Hall (Z.to_nat z)). rewrite Z2Nat.id in Hall by lia.
  cbv zeta in Hall. rewrite andb_true_iff, !Nat.leb_le in Hall.
  apply Hall. apply in_seq. lia.
Qed.

Lemma spaces_app n m : fmt.spaces (n + m) = fmt.spaces n +:+ fmt.spaces m.
Proof.
  induction n as [|n IH]; simpl; [done|]. by rewrite IH, string_app_cons.
Qed.

(** X17.  The columns of the report: for a word of at most 15 lower-case
    letters and a count from 0 to 9999 the line printed is the word, spaces,
    the digits of the count ending in column 19, and the newline; it is 20
    bytes long. *)
Theorem print_record_columns (r : wordCount) :
  lower_letters (word r) → String.length (word r) ≤ 15 →
  (0 <= count r <= 9999)%Z →
  print_record r =
    word r
    +:+ fmt.spaces (19 - String.length (word r)
                       - String.length (fmt.format_int (count r)))
    +:+ fmt.format_int (count r) +:+ String "010" "" ∧
  String.length (print_record r) = 20.
Proof.
  intros Hl Hw Hc.
  pose proof (format_int_short _ Hc) as Hd.
  assert (fmt.RuneCountInString (word r) = String.length (word r)) as Hrw.
  { apply RuneCount_ascii. eapply Forall_impl; [exact Hl|]. simpl.
    intros c Hlc. lia. }
  assert (fmt.RuneCountInString (fmt.format_int (count r)) =
          String.length (fmt.format_int (count r))) as Hrd.
  { apply RuneCount_ascii.
    eapply Forall_impl; [apply format_int_digits|]. simpl.
    intros c [Hn _]. unfold is_num_byte in Hn. cbv zeta in Hn.
    apply orb_true_iff in Hn as [Hn|Hn].
    - apply andb_true_iff in Hn as [_ Hn%Z.leb_le]. lia.
    - apply Z.eqb_eq in Hn. lia. }
  assert (print_record r =
    word r
    +:+ fmt.spaces (19 - String.length (word r)
                       - String.length (fmt.format_int (count r)))
    +:+ fmt.format_int (count r) +:+ String "010" "") as Heq.
  { unfold print_record, fmt.pad_right, fmt.pad_left. rewrite Hrw, Hrd.
    replace (19 - String.length (word r)
                - String.length (fmt.format_int (count r)))
      with ((15 - String.length (word r))
            + (4 - String.length (fmt.format_int (count r)))) by lia.
    by rewrite spaces_app, !string_app_assoc. }
  split; [done|].
  rewrite Heq, !string_app_length, spaces_length. simpl. lia.
Qed.

Lemma print_record_columns_witness :
  print_record (mkWordCount "cat" 3) =
    "cat" +:+ fmt.spaces (19 - String.length "cat"
                             - String.length (fmt.format_int 3))
    +:+ fmt.format_int 3 +:+ String "010" "" ∧
  String.length (print_record (mkWordCount "cat" 3)) = 20.
Proof.
  apply (print_record_columns (mkWordCount "cat" 3)).
  - unfold lower_letters. simpl. repeat constructor; vm_compute; discriminate.
  - simpl. lia.
  - simpl. lia.
Defined.

(** ** The goroutines with their select statements *)

Lemma send_all_result xs e : task.send_all xs e = sends_result xs e.
Proof.
  revert e. induction xs as [|x xs IH]; intros [p g c]; unfold sends_result;
    simpl.
  - unfold task.ret. by rewrite Nat.sub_0_r, app_nil_r.
  - unfold task.bind, task.send. simpl. destruct g as [|g]; simpl.
    + by rewrite ?take_0, ?app_nil_r.
    + rewrite IH. unfold sends_result. simpl.
      destruct (length xs <=? g); by rewrite <-app_assoc.
Qed.

Lemma send_all_app xs ys e :
  task.send_all (xs ++ ys) e =
    task.bind (task.send_all xs) (λ _, task.send_all ys) e.
Proof.
  revert e. induction xs as [|x xs IH]; intros e; simpl; [done|].
  unfold task.bind. destruct (task.send x e) as [[[]|err] e']; [|done].
  rewrite IH. reflexivity.
Qed.

Lemma run_send_all xs p g :
  task.run (task.send_all xs) p g =
    (if g <? length xs then Some ctx_Err else None, take g xs).
Proof.
  unfold task.run. rewrite send_all_result. unfold sends_result. simpl.
  destruct (length xs <=? g) eqn:E.
  - apply Nat.leb_le in E. rewrite (proj2 (Nat.ltb_ge _ _) E).
    by rewrite take_ge.
  - apply Nat.leb_gt in E. by rewrite (proj2 (Nat.ltb_lt _ _) E).
Qed.

Lemma mapper_range_sends fn input e :
  mapper_range fn input e = task.send_all (mapper input fn) e.
Proof.
  revert e. unfold mapper. induction input as [|l rest IH]; intros e; simpl;
    [done|].
  rewrite send_all_app. unfold task.bind.
  destruct (task.send_all (fn l) e) as [[[]|err] e']; [apply IH|done].
Qed.

Lemma reducer_range_sends wc input e :
  reducer_range wc input e = task.send_all (reducer_loop wc input) e.
Proof.
  revert wc e. induction input as [|inp rest IH]; intros wc e;
    cbn [reducer_range reducer_loop]; [done|].
  destruct (decide (word wc = word inp)) as [Heq|Hne].
  - rewrite reducer_step_same by done.
    rewrite (proj2 (String.eqb_eq _ _) Heq). cbn [negb app].
    unfold task.bind, task.ret. apply IH.
  - rewrite reducer_step_new by done.
    rewrite (proj2 (String.eqb_neq _ _) Hne). cbn [negb].
    destruct (String.eqb (word wc) ""); cbn [negb app].
    + unfold task.bind, task.ret. apply IH.
    + cbn [task.send_all]. unfold task.bind, task.ret.
      destruct (task.send wc e) as [[[]|err] e']; [apply IH|done].
Qed.

Lemma sorter_for_sends fuel (h : t) e :
  sorter_for fuel h e = task.send_all (sorter_emit fuel h) e.
Proof.
  revert h e. induction fuel as [|fuel IH]; intros h e; simpl; [done|].
  destruct (0 <? Len h); [|done].
  destruct (heap.Pop h) as [[v h']|]; [|done].
  simpl. unfold task.bind. destruct (task.send v e) as [[[]|err] e']; [apply IH|done].
Qed.

Lemma sorter_range_result input (h : t) p g c :
  sorter_range h input (task.mkEnv p g c) =
    if length input <=? p
    then (inl (fold_left heap.Push input h), task.mkEnv (p - length input) g c)
    else (inr ctx_Err, task.mkEnv 0 g c).
Proof.
  revert h p. induction input as [|wc rest IH]; intros h p; simpl.
  - unfold task.ret. by rewrite Nat.sub_0_r.
  - unfold task.bind, task.poll. simpl. destruct p as [|p]; simpl; [done|].
    apply IH.
Qed.

(** X18.  The goroutine of [mapper] sends the records of [fn] on the lines,
    in order, as long as its sends go through: it sends the first [g] of
    them, and returns the error of the context exactly when that is not all
    of them. *)
Theorem mapper_go_prefix (input : list string) (fn : string → list wordCount)
        (p g : nat) :
  mapper_go input fn p g =
    (if g <? length (mapper input fn) then Some ctx_Err else None,
     take g (mapper input fn)).
Proof.
  unfold mapper_go, task.run. rewrite mapper_range_sends.
  apply (run_send_all (mapper input fn) p g).
Qed.

(** X19.  The goroutine of [sorter], when it finds the context done before
    it has pushed all its input, returns the error and sends nothing;
    otherwise it sends the first [g] of the sorted records, and returns the
    error exactly when that is not all of them. *)
Theorem sorter_go_prefix (input : list wordCount) (p g : nat) :
  sorter_go input p g =
    if p <? length input then (Some ctx_Err, [])
    else (if g <? length input then Some ctx_Err else None,
          take g (sorter input)).
Proof.
  unfold sorter_go, task.run, task.bind. rewrite sorter_range_result.
  destruct (length input <=? p) eqn:E.
  - apply Nat.leb_le in E. rewrite (proj2 (Nat.ltb_ge _ _) E).
    rewrite sorter_for_sends.
    change (fold_left heap.Push input []) with (sorter_drain input).
    change (sorter_emit (Len (sorter_drain input)) (sorter_drain input))
      with (sorter input).
    pose proof (run_send_all (sorter input) (p - length input) g) as Hrun.
    unfold task.run in Hrun. rewrite Hrun.
    by rewrite (Permutation_length (sorter_perm input)).
  - apply Nat.leb_gt in E. by rewrite (proj2 (Nat.ltb_lt _ _) E).
Qed.

(** X20.  The goroutine of [reducer] sends the first [g] of the records it
    sends when it is not cancelled, and returns the error of the context
    exactly when that is not all of them: the accumulator it holds is then
    dropped. *)
Theorem reducer_go_prefix (input : list wordCount) (p g : nat) :
  reducer_go input p g =
    (if g <? length (reducer input) then Some ctx_Err else None,
     take g (reducer input)).
Proof.
  unfold reducer_go, task.run. rewrite reducer_range_sends.
  apply (run_send_all (reducer input) p g).
Qed.
